(** * rigid-go: signed, time-ordered identifiers

    A shallow embedding of [rigid.go] (package [rigid]) together with the
    library routines it calls, and the properties of the identifier format
    proved over that embedding.

    Conventions.
    - A Go [string] and a Go [[]byte] are both byte sequences.  Text is kept
      as a Rocq [string] (a list of 8-bit [ascii]); raw bytes handed to the
      hash are a [list Z] with every element in [0, 256).
    - Go's fixed-width integers are [Z] with the wrap-around written out.
    - A Go function returning [(T, error)] returns a pair [T * option error];
      [None] is the [nil] error.  A run-time panic is the [Panic] outcome.
    - The wall clock and the pseudo-random source are inputs ([Env]); the
      monotonic entropy state owned by an instance is threaded explicitly. *)

From Stdlib Require Import ZArith List String Ascii Lia Bool.
Import ListNotations.
Open Scope Z_scope.

(** ** Bytes and text *)

Definition byte_of_ascii (c : ascii) : Z := Z.of_N (N_of_ascii c).
Definition ascii_of_byte (b : Z) : ascii := ascii_of_N (Z.to_N b).

(** [[]byte(s)] *)
Fixpoint bytes_of_string (s : string) : list Z :=
  match s with
  | EmptyString => []
  | String c s' => byte_of_ascii c :: bytes_of_string s'
  end.

(** [lacks c s]: the byte [c] does not occur in [s]. *)
Fixpoint lacks (c : ascii) (s : string) : Prop :=
  match s with
  | EmptyString => True
  | String a s' => a <> c /\ lacks c s'
  end.

(** [all_in l s]: every byte of [s] is one of [l]. *)
Fixpoint all_in (l : list ascii) (s : string) : Prop :=
  match s with
  | EmptyString => True
  | String a s' => In a l /\ all_in l s'
  end.

Definition is_byte (b : Z) : Prop := 0 <= b < 256.

(** The integers [0 .. n-1], for checks that run over every byte. *)
Definition zrange (n : nat) : list Z := map Z.of_nat (seq 0 n).

(** Outcome of a call that may panic. *)
Inductive outcome (A : Type) : Type :=
| Done (a : A)
| Panic.
Arguments Done {A} a.
Arguments Panic {A}.

(** Go's [error] values that can reach a caller of package [rigid]: its own
    five sentinel errors, and the errors of package [ulid] that [Generate]
    hands on unchanged. *)
Inductive error : Type :=
| ErrInvalidFormat
| ErrInvalidULID
| ErrIntegrityFailure
| ErrEmptySecretKey
| ErrInvalidSigLength
| ulid_ErrDataSize
| ulid_ErrOverflow
| ulid_ErrBigTime
| ulid_ErrMonotonicOverflow.

(** ** Package [strings] *)

Module strings.

(** [strings.Split(s, sep)] for a one-byte separator, the only way the
    package is called: the pieces of [s] between consecutive occurrences of
    [sep]; one more piece than there are separators, so never empty. *)
Fixpoint Split (s : string) (sep : ascii) : list string :=
  match s with
  | EmptyString => [EmptyString]
  | String c s' =>
      if Ascii.eqb c sep then EmptyString :: Split s' sep
      else match Split s' sep with
           | p :: ps => String c p :: ps
           | [] => [String c EmptyString]
           end
  end.

(** [strings.Join(elems, sep)] *)
Fixpoint Join (elems : list string) (sep : string) : string :=
  match elems with
  | [] => EmptyString
  | [x] => x
  | x :: rest => (x ++ sep ++ Join rest sep)%string
  end.

Definition upper_byte (c : ascii) : ascii :=
  let n := byte_of_ascii c in
  if (97 <=? n) && (n <=? 122) then ascii_of_byte (n - 32) else c.

(** [strings.ToUpper(s)] on ASCII text: 'a'..'z' are moved to 'A'..'Z',
    every other byte is kept. *)
Fixpoint ToUpper (s : string) : string :=
  match s with
  | EmptyString => EmptyString
  | String c s' => String (upper_byte c) (ToUpper s')
  end.

End strings.

(** ** Package [encoding/base32] *)

Module base32.

(** [encodeStd], the RFC 4648 alphabet. *)
Definition encodeStd : string := "ABCDEFGHIJKLMNOPQRSTUVWXYZ234567".

(** [enc.encode[b & 31]] *)
Definition encode (b : Z) : ascii :=
  nth (Z.to_nat (Z.land b 31)) (list_ascii_of_string encodeStd) "A"%char.

(** The eight 5-bit blocks of one 5-byte quantum; bytes missing from a
    short final quantum contribute nothing, i.e. count as 0.  The [uint8]
    shifts to the left are cut back by the mask [0x1F] that follows them. *)
Definition blocks (s0 s1 s2 s3 s4 : Z) : list Z :=
  [ Z.shiftr s0 3;
    Z.lor (Z.land (Z.shiftr s1 6) 31) (Z.land (Z.shiftl s0 2) 31);
    Z.land (Z.shiftr s1 1) 31;
    Z.lor (Z.land (Z.shiftr s2 4) 31) (Z.land (Z.shiftl s1 4) 31);
    Z.lor (Z.shiftr s3 7) (Z.land (Z.shiftl s2 1) 31);
    Z.land (Z.shiftr s3 2) 31;
    Z.lor (Z.shiftr s4 5) (Z.land (Z.shiftl s3 3) 31);
    Z.land s4 31 ].

Definition chars (n : nat) (bs : list Z) : string :=
  string_of_list_ascii (map encode (firstn n bs)).

(** [StdEncoding.WithPadding(NoPadding).EncodeToString(src)]: full quanta
    give 8 characters, a final quantum of 1, 2, 3 or 4 bytes gives 2, 4, 5
    or 7 characters and no padding. *)
Fixpoint EncodeToString (src : list Z) : string :=
  match src with
  | [] => EmptyString
  | [s0] => chars 2 (blocks s0 0 0 0 0)
  | [s0; s1] => chars 4 (blocks s0 s1 0 0 0)
  | [s0; s1; s2] => chars 5 (blocks s0 s1 s2 0 0)
  | [s0; s1; s2; s3] => chars 7 (blocks s0 s1 s2 s3 0)
  | s0 :: s1 :: s2 :: s3 :: s4 :: rest =>
      (chars 8 (blocks s0 s1 s2 s3 s4) ++ EncodeToString rest)%string
  end.

End base32.

(** The characters the encoder can write. *)
Definition alphabet : list ascii := list_ascii_of_string base32.encodeStd.

(** ** Package [crypto/sha256] *)

Module sha256.

Definition mask32 : Z := 0xFFFFFFFF.
Definition add32 (x y : Z) : Z := Z.land (x + y) mask32.
(** [bits.RotateLeft32(x, -n)] *)
Definition rotr (n x : Z) : Z :=
  Z.land (Z.lor (Z.shiftr x n) (Z.shiftl x (32 - n))) mask32.
Definition not32 (x : Z) : Z := Z.lxor x mask32.

Definition _K : list Z :=
  [ 0x428A2F98; 0x71374491; 0xB5C0FBCF; 0xE9B5DBA5; 0x3956C25B; 0x59F111F1;
    0x923F82A4; 0xAB1C5ED5; 0xD807AA98; 0x12835B01; 0x243185BE; 0x550C7DC3;
    0x72BE5D74; 0x80DEB1FE; 0x9BDC06A7; 0xC19BF174; 0xE49B69C1; 0xEFBE4786;
    0x0FC19DC6; 0x240CA1CC; 0x2DE92C6F; 0x4A7484AA; 0x5CB0A9DC; 0x76F988DA;
    0x983E5152; 0xA831C66D; 0xB00327C8; 0xBF597FC7; 0xC6E00BF3; 0xD5A79147;
    0x06CA6351; 0x14292967; 0x27B70A85; 0x2E1B2138; 0x4D2C6DFC; 0x53380D13;
    0x650A7354; 0x766A0ABB; 0x81C2C92E; 0x92722C85; 0xA2BFE8A1; 0xA81A664B;
    0xC24B8B70; 0xC76C51A3; 0xD192E819; 0xD6990624; 0xF40E3585; 0x106AA070;
    0x19A4C116; 0x1E376C08; 0x2748774C; 0x34B0BCB5; 0x391C0CB3; 0x4ED8AA4A;
    0x5B9CCA4F; 0x682E6FF3; 0x748F82EE; 0x78A5636F; 0x84C87814; 0x8CC70208;
    0x90BEFFFA; 0xA4506CEB; 0xBEF9A3F7; 0xC67178F2 ].

(** The chaining value [h0 .. h7]. *)
Record digest : Type := mkDigest {
  h0 : Z; h1 : Z; h2 : Z; h3 : Z; h4 : Z; h5 : Z; h6 : Z; h7 : Z
}.

Definition init : digest :=
  mkDigest 0x6a09e667 0xbb67ae85 0x3c6ef372 0xa54ff53a
           0x510e527f 0x9b05688c 0x1f83d9ab 0x5be0cd19.

(** Big-endian 32-bit word of four bytes, and back. *)
Definition be_word (b0 b1 b2 b3 : Z) : Z :=
  Z.lor (Z.lor (Z.shiftl b0 24) (Z.shiftl b1 16)) (Z.lor (Z.shiftl b2 8) b3).

Definition be_bytes (w : Z) : list Z :=
  [ Z.land (Z.shiftr w 24) 255; Z.land (Z.shiftr w 16) 255;
    Z.land (Z.shiftr w 8) 255; Z.land w 255 ].

(** The first sixteen schedule words of a 64-byte chunk. *)
Fixpoint words (n : nat) (p : list Z) : list Z :=
  match n, p with
  | S n', b0 :: b1 :: b2 :: b3 :: p' => be_word b0 b1 b2 b3 :: words n' p'
  | _, _ => []
  end.

(** Schedule words [w[i]] for [i = 16 ..], appended one at a time. *)
Fixpoint extend (n : nat) (w : list Z) : list Z :=
  match n with
  | O => w
  | S n' =>
      let i := List.length w in
      let v1 := nth (i - 2) w 0 in
      let t1 := Z.lxor (Z.lxor (rotr 17 v1) (rotr 19 v1)) (Z.shiftr v1 10) in
      let v2 := nth (i - 15) w 0 in
      let t2 := Z.lxor (Z.lxor (rotr 7 v2) (rotr 18 v2)) (Z.shiftr v2 3) in
      extend n' (w ++ [add32 (add32 (add32 t1 (nth (i - 7) w 0)) t2)
                             (nth (i - 16) w 0)])
  end.

(** One round of the compression loop. *)
Definition round (s : digest) (kw : Z * Z) : digest :=
  let '(mkDigest a b c d e f g h) := s in
  let t1 := add32 (add32 (add32 (add32 h
              (Z.lxor (Z.lxor (rotr 6 e) (rotr 11 e)) (rotr 25 e)))
              (Z.lxor (Z.land e f) (Z.land (not32 e) g)))
              (fst kw)) (snd kw) in
  let t2 := add32 (Z.lxor (Z.lxor (rotr 2 a) (rotr 13 a)) (rotr 22 a))
                  (Z.lxor (Z.lxor (Z.land a b) (Z.land a c)) (Z.land b c)) in
  mkDigest (add32 t1 t2) a b c (add32 d t1) e f g.

(** [block] on one 64-byte chunk. *)
Definition block1 (s : digest) (p : list Z) : digest :=
  let w := extend 48 (words 16 p) in
  let t := fold_left round (combine _K w) s in
  mkDigest (add32 (h0 s) (h0 t)) (add32 (h1 s) (h1 t))
           (add32 (h2 s) (h2 t)) (add32 (h3 s) (h3 t))
           (add32 (h4 s) (h4 t)) (add32 (h5 s) (h5 t))
           (add32 (h6 s) (h6 t)) (add32 (h7 s) (h7 t)).

(** [block] over [n] consecutive chunks. *)
Fixpoint block (n : nat) (s : digest) (p : list Z) : digest :=
  match n with
  | O => s
  | S n' => block n' (block1 s (firstn 64 p)) (skipn 64 p)
  end.

(** The padding written by [checkSum]: 0x80, zeros up to 56 mod 64, then
    the length in bits as a big-endian [uint64]. *)
Definition padding (len : Z) : list Z :=
  let r := len mod 64 in
  let zeros := if r <? 56 then 55 - r else 119 - r in
  let bits := Z.land (Z.shiftl len 3) 0xFFFFFFFFFFFFFFFF in
  0x80 :: repeat 0 (Z.to_nat zeros)
    ++ be_bytes (Z.shiftr bits 32) ++ be_bytes (Z.land bits mask32).

Definition out (s : digest) : list Z :=
  be_bytes (h0 s) ++ be_bytes (h1 s) ++ be_bytes (h2 s) ++ be_bytes (h3 s)
  ++ be_bytes (h4 s) ++ be_bytes (h5 s) ++ be_bytes (h6 s) ++ be_bytes (h7 s).

(** [sha256.Sum256(data)]: the digest of everything written to a fresh
    [sha256.New()] hash, which is what [Sum] of that hash returns. *)
Definition Sum256 (data : list Z) : list Z :=
  let p := data ++ padding (Z.of_nat (List.length data)) in
  out (block (List.length p / 64) init p).

Definition BlockSize : nat := 64.
Definition Size : nat := 32.

End sha256.

(** ** Package [crypto/hmac] *)

Module hmac.

(** An HMAC in progress: the two key pads and the bytes written so far to
    the inner hash (which starts with [ipad]). *)
Record HMAC : Type := mkHMAC {
  opad : list Z;
  ipad : list Z;
  inner : list Z
}.

Definition pad (key : list Z) (x : Z) : list Z :=
  map (fun k => Z.lxor k x)
      (key ++ repeat 0 (sha256.BlockSize - List.length key)).

(** [hmac.New(sha256.New, key)] *)
Definition New (key : list Z) : HMAC :=
  let key' :=
    if (sha256.BlockSize <? List.length key)%nat then sha256.Sum256 key else key in
  mkHMAC (pad key' 0x5c) (pad key' 0x36) (pad key' 0x36).

(** [h.Write(p)] *)
Definition Write (h : HMAC) (p : list Z) : HMAC :=
  mkHMAC (opad h) (ipad h) (inner h ++ p).

(** [h.Sum(nil)] *)
Definition Sum (h : HMAC) : list Z :=
  sha256.Sum256 (opad h ++ sha256.Sum256 (inner h)).

End hmac.

(** ** Package [crypto/subtle] *)

Module subtle.

(** [ConstantTimeByteEq(x, y)]: [int((uint32(x^y) - 1) >> 31)] *)
Definition ConstantTimeByteEq (x y : Z) : Z :=
  Z.shiftr (Z.land (Z.lxor x y - 1) 0xFFFFFFFF) 31.

(** The loop [v |= x[i] ^ y[i]] over two slices of one length. *)
Fixpoint accumulate (v : Z) (x y : list Z) : Z :=
  match x, y with
  | a :: x', b :: y' => accumulate (Z.lor v (Z.lxor a b)) x' y'
  | _, _ => v
  end.

(** [subtle.ConstantTimeCompare(x, y)] *)
Definition ConstantTimeCompare (x y : list Z) : Z :=
  if negb (List.length x =? List.length y)%nat then 0
  else ConstantTimeByteEq (accumulate 0 x y) 0.

End subtle.

(** ** Package [time] *)

(** A [time.Time], as the two readings the program takes of it: [t.Unix()],
    seconds since the epoch, and [t.Nanosecond()], in [0, 999999999]. *)
Record Time : Type := mkTime { Unix : Z; Nanosecond : Z }.

Module time.

(** [time.Time{}], January 1 of year 1, 00:00:00 UTC. *)
Definition zero : Time := mkTime (-62135596800) 0.

(** [time.Unix(sec, nsec)]; Go's [/] on integers truncates toward zero. *)
Definition Unix (sec nsec : Z) : Time :=
  if (nsec <? 0) || (1000000000 <=? nsec) then
    let n := Z.quot nsec 1000000000 in
    let sec := sec + n in
    let nsec := nsec - n * 1000000000 in
    if nsec <? 0 then mkTime (sec - 1) (nsec + 1000000000)
    else mkTime sec nsec
  else mkTime sec nsec.

Definition Millisecond : Z := 1000000.

End time.

(** ** Package [github.com/oklog/ulid/v2] *)

Definition uint64 (x : Z) : Z := x mod 2 ^ 64.
Definition uint16 (x : Z) : Z := x mod 2 ^ 16.
(** [byte(x)] and an [uint8] shift to the left *)
Definition uint8 (x : Z) : Z := Z.land x 255.
Definition shl8 (x n : Z) : Z := Z.land (Z.shiftl x n) 255.

Module ulid.

(** [type ULID [16]byte] *)
Definition ULID : Type := list Z.

Definition zero : ULID := repeat 0 16.

Definition wf (id : ULID) : Prop :=
  List.length id = 16%nat /\ Forall is_byte id.

Definition EncodedSize : nat := 26.
Definition maxTime : Z := 281474976710655.

(** [Encoding], Crockford's base32 alphabet. *)
Definition Encoding : string := "0123456789ABCDEFGHJKMNPQRSTVWXYZ".

Definition encode (q : Z) : ascii :=
  nth (Z.to_nat q) (list_ascii_of_string Encoding) "0"%char.

(** The table [dec]: the value of a character of the alphabet in either
    case, [0xFF] for every other byte. *)
Definition dec (c : Z) : Z :=
  if (48 <=? c) && (c <=? 57) then c - 48
  else
    let u := if (97 <=? c) && (c <=? 122) then c - 32 else c in
    if (65 <=? u) && (u <=? 72) then u - 55
    else if (74 <=? u) && (u <=? 75) then u - 56
    else if (77 <=? u) && (u <=? 78) then u - 57
    else if (80 <=? u) && (u <=? 84) then u - 58
    else if (86 <=? u) && (u <=? 90) then u - 59
    else 0xFF.

(** The unrolled encoder turns five bytes into eight characters by one
    pattern, used for [id[1..5]], [id[6..10]] and [id[11..15]]. *)
Definition enc5 (b1 b2 b3 b4 b5 : Z) : list Z :=
  [ Z.shiftr (Z.land b1 248) 3;
    Z.lor (Z.shiftl (Z.land b1 7) 2) (Z.shiftr (Z.land b2 192) 6);
    Z.shiftr (Z.land b2 62) 1;
    Z.lor (Z.shiftl (Z.land b2 1) 4) (Z.shiftr (Z.land b3 240) 4);
    Z.lor (Z.shiftl (Z.land b3 15) 1) (Z.shiftr (Z.land b4 128) 7);
    Z.shiftr (Z.land b4 124) 2;
    Z.lor (Z.shiftl (Z.land b4 3) 3) (Z.shiftr (Z.land b5 224) 5);
    Z.land b5 31 ].

(** The index into [Encoding] of each of the 26 characters. *)
Definition quintets (id : ULID) : list Z :=
  let b i := nth i id 0 in
  [ Z.shiftr (Z.land (b 0%nat) 224) 5; Z.land (b 0%nat) 31 ]
  ++ enc5 (b 1%nat) (b 2%nat) (b 3%nat) (b 4%nat) (b 5%nat)
  ++ enc5 (b 6%nat) (b 7%nat) (b 8%nat) (b 9%nat) (b 10%nat)
  ++ enc5 (b 11%nat) (b 12%nat) (b 13%nat) (b 14%nat) (b 15%nat).

(** [id.String()] *)
Definition String (id : ULID) : string :=
  string_of_list_ascii (map encode (quintets id)).

(** The unrolled decoder, eight table values to five bytes. *)
Definition dec5 (d2 d3 d4 d5 d6 d7 d8 d9 : Z) : list Z :=
  [ Z.lor (shl8 d2 3) (Z.shiftr d3 2);
    Z.lor (Z.lor (shl8 d3 6) (shl8 d4 1)) (Z.shiftr d5 4);
    Z.lor (shl8 d5 4) (Z.shiftr d6 1);
    Z.lor (Z.lor (shl8 d6 7) (shl8 d7 2)) (Z.shiftr d8 3);
    Z.lor (shl8 d8 5) d9 ].

Definition decode (v : list Z) : ULID :=
  let d i := dec (nth i v 0) in
  [ Z.lor (shl8 (d 0%nat) 5) (d 1%nat) ]
  ++ dec5 (d 2%nat) (d 3%nat) (d 4%nat) (d 5%nat)
          (d 6%nat) (d 7%nat) (d 8%nat) (d 9%nat)
  ++ dec5 (d 10%nat) (d 11%nat) (d 12%nat) (d 13%nat)
          (d 14%nat) (d 15%nat) (d 16%nat) (d 17%nat)
  ++ dec5 (d 18%nat) (d 19%nat) (d 20%nat) (d 21%nat)
          (d 22%nat) (d 23%nat) (d 24%nat) (d 25%nat).

(** [ulid.Parse(s)]: the length and the overflow of the first character
    are checked, the characters themselves are not (non-strict mode). *)
Definition Parse (s : string) : ULID * option error :=
  let v := bytes_of_string s in
  if negb (List.length v =? EncodedSize)%nat then (zero, Some ulid_ErrDataSize)
  else if 55 <? nth 0 v 0 then (zero, Some ulid_ErrOverflow)
  else (decode v, None).

(** [id.Time()] *)
Definition ULID_Time (id : ULID) : Z :=
  let b i := nth i id 0 in
  Z.lor (Z.lor (Z.lor (Z.lor (Z.lor (b 5%nat) (Z.shiftl (b 4%nat) 8))
    (Z.shiftl (b 3%nat) 16)) (Z.shiftl (b 2%nat) 24))
    (Z.shiftl (b 1%nat) 32)) (Z.shiftl (b 0%nat) 40).

(** [ulid.Timestamp(t)] *)
Definition Timestamp (t : Time) : Z :=
  uint64 (uint64 (Unix t) * 1000
          + uint64 (Z.quot (Nanosecond t) time.Millisecond)).

(** [ulid.Time(ms)] *)
Definition Time (ms : Z) : Time :=
  time.Unix (ms / 1000) ((ms mod 1000) * 1000000).

(** [uint80], the 80 bits of entropy as a 16-bit and a 64-bit half. *)
Record uint80 : Type := mkUint80 { Hi : Z; Lo : Z }.

(** [u.Add(n)]: the sum, and whether it left the 80 bits. *)
Definition Add (u : uint80) (n : Z) : uint80 * bool :=
  let lo := uint64 (Lo u + n) in
  let hi := if lo <? Lo u then uint16 (Hi u + 1) else Hi u in
  (mkUint80 hi lo, hi <? Hi u).

Definition IsZero (u : uint80) : bool := (Hi u =? 0) && (Lo u =? 0).

Definition be (n : nat) (x : Z) : list Z :=
  map (fun i => uint8 (Z.shiftr x (8 * Z.of_nat i))) (rev (seq 0 n)).

(** [u.AppendTo(b)]: ten bytes, big-endian. *)
Definition AppendTo (u : uint80) : list Z := be 2 (Hi u) ++ be 8 (Lo u).

(** [u.SetBytes(bs)] of the ten bytes that spell [x]. *)
Definition SetBytes (x : Z) : uint80 :=
  mkUint80 (Z.shiftr x 64) (Z.land x (Z.ones 64)).

(** [MonotonicEntropy]: the millisecond of the last read, the bound of
    the random increment and the last entropy handed out. *)
Record MonotonicEntropy : Type := mkMonotonic {
  ms : Z;
  inc : Z;
  entropy : uint80
}.

(** What the pseudo-random source yields during one call: the ten bytes
    a full read returns, as the big-endian number they spell, and the number
    from which [Int63n] takes its result. *)
Record Rand : Type := mkRand { read : Z; int63 : Z }.

(** [ulid.Monotonic(entropy, inc)] *)
Definition Monotonic (inc : Z) : MonotonicEntropy :=
  mkMonotonic 0 (if inc =? 0 then 4294967295 else inc) (mkUint80 0 0).

(** [m.random()]: 1, or a number in [1, m.inc]. *)
Definition random (m : MonotonicEntropy) (rnd : Rand) : Z :=
  if inc m <=? 1 then 1 else uint64 (1 + int63 rnd mod inc m).

(** [m.MonotonicRead(ms, entropy)]: the new state, the ten bytes written
    to [entropy], and the error. *)
Definition MonotonicRead (m : MonotonicEntropy) (t : Z) (rnd : Rand)
  : MonotonicEntropy * list Z * option error :=
  if negb (IsZero (entropy m)) && (ms m =? t) then
    let '(u, overflow) := Add (entropy m) (random m rnd) in
    (mkMonotonic (ms m) (inc m) u, AppendTo u,
     if overflow then Some ulid_ErrMonotonicOverflow else None)
  else
    let x := read rnd mod 2 ^ 80 in
    (mkMonotonic t (inc m) (SetBytes x), be 10 x, None).

(** [ulid.New(ms, entropy)] with a [*MonotonicEntropy] for [entropy]. *)
Definition New (t : Z) (m : MonotonicEntropy) (rnd : Rand)
  : ULID * option error * MonotonicEntropy :=
  if maxTime <? t then (zero, Some ulid_ErrBigTime, m)
  else
    let '(m', e, err) := MonotonicRead m t rnd in
    (be 6 t ++ e, err, m').

End ulid.

(** ** Package [rigid] *)

Definition DefaultSignatureLength : Z := 8.
Definition MinSignatureLength : Z := 4.
Definition MaxSignatureLength : Z := 32.

(** [type Rigid struct].  The mutex [mu] has no content in a sequential
    model; [entropy] is the state behind the pointer. *)
Record Rigid : Type := mkRigid {
  secretKey : list Z;
  signatureLength : Z;
  entropy : ulid.MonotonicEntropy
}.

Record VerifyResult : Type := mkVerifyResult {
  Valid : bool;
  ULID : string;
  Metadata : string
}.

(** [VerifyResult{}] *)
Definition zeroVerifyResult : VerifyResult :=
  mkVerifyResult false EmptyString EmptyString.

(** What one call of [Generate] reads from outside the instance:
    [time.Now()] and the output of the pseudo-random source. *)
Record Env : Type := mkEnv { now : Time; rnd : ulid.Rand }.

(** [NewRigid(secretKey, signatureLength...)]; the seed of the random source
    does not show in the instance. *)
Definition NewRigid (secretKey : list Z) (signatureLength : list Z)
  : option Rigid * option error :=
  if (List.length secretKey =? 0)%nat then (None, Some ErrEmptySecretKey)
  else
    match signatureLength with
    | sigLen :: _ =>
        if (sigLen <? MinSignatureLength) || (MaxSignatureLength <? sigLen)
        then (None, Some ErrInvalidSigLength)
        else (Some (mkRigid secretKey sigLen (ulid.Monotonic 0)), None)
    | [] =>
        (Some (mkRigid secretKey DefaultSignatureLength (ulid.Monotonic 0)),
         None)
    end.

(** The slice expression [s[:n]], which panics unless [0 <= n <= cap(s)];
    the slice returned by [Sum(nil)] has no spare capacity. *)
Definition slice_to (s : list Z) (n : Z) : outcome (list Z) :=
  if (0 <=? n) && (n <=? Z.of_nat (List.length s))
  then Done (firstn (Z.to_nat n) s) else Panic.

(** [r.generateSignature(ulidStr, metadata)] *)
Definition generateSignature (r : Rigid) (ulidStr metadata : string)
  : outcome string :=
  let h := hmac.New (secretKey r) in
  let h := hmac.Write h (bytes_of_string ulidStr) in
  let h := if negb (String.eqb metadata "") then
             hmac.Write h (bytes_of_string metadata)
           else h in
  let sum := hmac.Sum h in
  match slice_to sum (signatureLength r) with
  | Done truncated => Done (strings.ToUpper (base32.EncodeToString truncated))
  | Panic => Panic
  end.

(** [r.Generate(metadata...)]: the returned pair, and the instance with its
    entropy state advanced. *)
Definition Generate (r : Rigid) (e : Env) (metadata : list string)
  : outcome (string * option error) * Rigid :=
  let '(ulidObj, err, m) := ulid.New (ulid.Timestamp (now e)) (entropy r) (rnd e) in
  let r' := mkRigid (secretKey r) (signatureLength r) m in
  match err with
  | Some err => (Done (EmptyString, Some err), r')
  | None =>
      let ulidStr := ulid.String ulidObj in
      let metadataStr := match metadata with m0 :: _ => m0 | [] => EmptyString end in
      match generateSignature r ulidStr metadataStr with
      | Panic => (Panic, r')
      | Done signature =>
          let result := (ulidStr ++ "-" ++ signature)%string in
          let result := if negb (String.eqb metadataStr "")
                        then (result ++ "-" ++ metadataStr)%string
                        else result in
          (Done (result, None), r')
      end
  end.

(** *** Calls observed during [Verify] *)

(** A call of [subtle.ConstantTimeCompare] with its two arguments. *)
Inductive call : Type :=
| ConstantTimeCompare_call (x y : list Z).

(** A computation that may panic and that records the comparisons it
    makes, in order. *)
Definition Traced (A : Type) : Type := outcome A * list call.

Definition ret {A} (a : A) : Traced A := (Done a, []).

Definition bind {A B} (m : Traced A) (f : A -> Traced B) : Traced B :=
  match m with
  | (Done a, t) => let '(b, t') := f a in (b, t ++ t')
  | (Panic, t) => (Panic, t)
  end.

Definition lift {A} (o : outcome A) : Traced A := (o, []).

Definition compare (x y : list Z) : Traced Z :=
  (Done (subtle.ConstantTimeCompare x y), [ConstantTimeCompare_call x y]).

Notation "x <- m ;; f" := (bind m (fun x => f))
  (at level 61, m at next level, right associativity).

(** [r.Verify(secureULID)], with the comparisons it makes. *)
Definition Verify_traced (r : Rigid) (secureULID : string)
  : Traced (VerifyResult * option error) :=
  let result := zeroVerifyResult in
  let parts := strings.Split secureULID "-" in
  if (List.length parts <? 2)%nat then ret (result, Some ErrInvalidFormat)
  else
    let ulidStr := nth 0 parts EmptyString in
    let signature := nth 1 parts EmptyString in
    let metadata := if (2 <? List.length parts)%nat
                    then strings.Join (skipn 2 parts) "-" else EmptyString in
    match snd (ulid.Parse ulidStr) with
    | Some _ => ret (result, Some ErrInvalidULID)
    | None =>
        expectedSignature <- lift (generateSignature r ulidStr metadata) ;;
        if negb (String.length signature =? String.length expectedSignature)%nat
        then ret (result, Some ErrIntegrityFailure)
        else
          c <- compare (bytes_of_string signature)
                       (bytes_of_string expectedSignature) ;;
          if negb (c =? 1) then ret (result, Some ErrIntegrityFailure)
          else ret (mkVerifyResult true ulidStr metadata, None)
    end.

(** [r.Verify(secureULID)] *)
Definition Verify (r : Rigid) (secureULID : string)
  : outcome (VerifyResult * option error) :=
  fst (Verify_traced r secureULID).

(** [r.ExtractULID(secureULID)] *)
Definition ExtractULID (r : Rigid) (secureULID : string)
  : ulid.ULID * option error :=
  let zeroULID := ulid.zero in
  let parts := strings.Split secureULID "-" in
  if (List.length parts <? 2)%nat then (zeroULID, Some ErrInvalidFormat)
  else
    match ulid.Parse (nth 0 parts EmptyString) with
    | (_, Some _) => (zeroULID, Some ErrInvalidULID)
    | (ulidObj, None) => (ulidObj, None)
    end.

(** [r.ExtractTimestamp(secureULID)] *)
Definition ExtractTimestamp (r : Rigid) (secureULID : string)
  : Time * option error :=
  match ExtractULID r secureULID with
  | (_, Some err) => (time.zero, Some err)
  | (ulidObj, None) => (ulid.Time (ulid.ULID_Time ulidObj), None)
  end.

(** ** The signature as the specification words it

    HMAC as RFC 2104 defines it over SHA-256, and the signature text: the
    unpadded base32 text, in the upper-case RFC 4648 alphabet, of the first
    [N] bytes of the HMAC of the id text followed by the metadata. *)

Definition HMAC_SHA256 (key msg : list Z) : list Z :=
  let k := if (64 <? List.length key)%nat then sha256.Sum256 key else key in
  let k := k ++ repeat 0 (64 - List.length k) in
  sha256.Sum256 (map (fun b => Z.lxor b 0x5c) k
                 ++ sha256.Sum256 (map (fun b => Z.lxor b 0x36) k ++ msg)).

Definition spec_signature (key : list Z) (N : Z) (id_text metadata : string)
  : string :=
  base32.EncodeToString
    (firstn (Z.to_nat N)
       (HMAC_SHA256 key (bytes_of_string id_text ++ bytes_of_string metadata))).

(** Signing the id text alone: the only bytes written to the HMAC are
    those of [id_text]. *)
Definition sign_id_alone (r : Rigid) (id_text : string) : outcome string :=
  let h := hmac.Write (hmac.New (secretKey r)) (bytes_of_string id_text) in
  match slice_to (hmac.Sum h) (signatureLength r) with
  | Done truncated => Done (strings.ToUpper (base32.EncodeToString truncated))
  | Panic => Panic
  end.

(** The text [Generate] assembles from its three parts. *)
Definition assemble (id_text signature metadata : string) : string :=
  if String.eqb metadata "" then (id_text ++ "-" ++ signature)%string
  else ((id_text ++ "-" ++ signature) ++ "-" ++ metadata)%string.

(** ** Reference behaviour of the checks

    What [Verify] decides, with the signature compared as text: the format
    check, the id check, then equality of the second segment with the
    signature computed over the first segment and the rejoined rest. *)
Definition Verify_decision (r : Rigid) (secureULID : string)
  : VerifyResult * option error :=
  let parts := strings.Split secureULID "-" in
  let ulidStr := nth 0 parts EmptyString in
  let signature := nth 1 parts EmptyString in
  let metadata := if (2 <? List.length parts)%nat
                  then strings.Join (skipn 2 parts) "-" else EmptyString in
  if (List.length parts <? 2)%nat then (zeroVerifyResult, Some ErrInvalidFormat)
  else match snd (ulid.Parse ulidStr) with
       | Some _ => (zeroVerifyResult, Some ErrInvalidULID)
       | None =>
           if String.eqb signature
                (spec_signature (secretKey r) (signatureLength r) ulidStr metadata)
           then (mkVerifyResult true ulidStr metadata, None)
           else (zeroVerifyResult, Some ErrIntegrityFailure)
       end.

(** A run of [Generate] calls on one instance, each with its own reading of
    the clock and of the random source: the results in order and the instance
    at the end. *)
Fixpoint Generate_all (r : Rigid) (calls : list (Env * list string))
  : list (outcome (string * option error)) * Rigid :=
  match calls with
  | [] => ([], r)
  | (e, metadata) :: rest =>
      let '(o, r1) := Generate r e metadata in
      let '(os, r2) := Generate_all r1 rest in
      (o :: os, r2)
  end.

(** The number that bytes spell, most significant byte first. *)
Definition from_be (l : list Z) : Z :=
  fold_left (fun acc b => acc * 256 + b) l 0.

(** The number a [uint80] stands for. *)
Definition uint80_value (u : ulid.uint80) : Z := ulid.Hi u * 2 ^ 64 + ulid.Lo u.

(** The entropy state as the library keeps it: both halves within their
    widths and the increment bound that [Monotonic(_, 0)] sets. *)
Definition entropy_ok (m : ulid.MonotonicEntropy) : Prop :=
  0 <= ulid.Hi (ulid.entropy m) < 2 ^ 16
  /\ 0 <= ulid.Lo (ulid.entropy m) < 2 ^ 64
  /\ ulid.inc m = 4294967295.

(** Lower-case hexadecimal, to compare digests with published vectors. *)
Definition hex_digit (n : Z) : ascii :=
  nth (Z.to_nat n) (list_ascii_of_string "0123456789abcdef") "0"%char.

Fixpoint hex (bs : list Z) : string :=
  match bs with
  | [] => EmptyString
  | b :: bs' => String (hex_digit (Z.shiftr b 4))
                  (String (hex_digit (Z.land b 15)) (hex bs'))
  end.

(** ** Concrete inputs

    The key of the package's tests, two instances and a reading of the
    clock and of the random source. *)

Definition testSecretKey : list Z :=
  bytes_of_string "test-secret-key-for-rigid-testing".

Definition r8 : Rigid := mkRigid testSecretKey 8 (ulid.Monotonic 0).
Definition r4 : Rigid := mkRigid testSecretKey 4 (ulid.Monotonic 0).

Definition env0 : Env :=
  mkEnv (mkTime 1469918176 385000000)
        (ulid.mkRand 123456789012345678901234 77).

(** One identifier with metadata and one without, made by [r8] at [env0]. *)
Definition id_meta : string := "01ARYZ6S4138J9P7RGM1P9DBZJ-5R4F67TEB3JEU-a-b--c".
Definition id_plain : string := "01ARYZ6S4138J9P7RGM1P9DBZJ-37UGMCZHMJFTO".
Definition r8_after : Rigid :=
  mkRigid testSecretKey 8
    (ulid.mkMonotonic 1469918176385 4294967295
       (ulid.mkUint80 6692 11177671081359486962)).

(** A well-formed id followed by a signature of the wrong length. *)
Definition id_short : string := "01ARYZ6S4138J9P7RGM1P9DBZJ-SHORT".

(** A generated id with a signature that is not its own, and the plain
    identifier with one more hyphen at its end. *)
Definition id_forged : string := "01ARYZ6S4138J9P7RGM1P9DBZJ-AAAAAAAAAAAAA-a-b--c".
Definition id_trailing : string := "01ARYZ6S4138J9P7RGM1P9DBZJ-37UGMCZHMJFTO-".

(** A second instance with the key and length of [r8], in another state. *)
Definition r8_other : Rigid :=
  mkRigid testSecretKey 8
    (ulid.mkMonotonic 5 4294967295 (ulid.mkUint80 1 2)).

(** The characters an encoded id is made of. *)
Definition crockford : list ascii := list_ascii_of_string ulid.Encoding.

(** A well-formed id on its own, and the sixteen bytes it stands for. *)
Definition bare_id : string := "01ARZ3NDEKTSV4RRFFQ69G5FAV".
Definition ulid_example : ulid.ULID :=
  [1; 86; 62; 58; 181; 211; 214; 118; 76; 97; 239; 185; 147; 2; 189; 91].

(** A clock reading past the 48 bits of milliseconds, and two calls in a
    row. *)
Definition env_late : Env :=
  mkEnv (mkTime 281474976711 0) (ulid.mkRand 1 1).
Definition two_calls : list (Env * list string) :=
  [ (env0, ["a-b--c"%string]); (env0, []) ].

(** The identifier that [r8_after] makes next within the same millisecond. *)
Definition id_next : string := "01ARYZ6S4138J9P7RGM1P9DC20-C5T3ZUQ6X53KM".

(** * Test vectors *)

Example sha256_abc :
  hex (sha256.Sum256 (bytes_of_string "abc")) =
  "ba7816bf8f01cfea414140de5dae2223b00361a396177a9cb410ff61f20015ad"%string.
Proof. vm_compute. reflexivity. Qed.

Example sha256_empty :
  hex (sha256.Sum256 []) =
  "e3b0c44298fc1c149afbf4c8996fb92427ae41e4649b934ca495991b7852b855"%string.
Proof. vm_compute. reflexivity. Qed.

Example hmac_rfc4231_case2 :
  hex (hmac.Sum (hmac.Write (hmac.New (bytes_of_string "Jefe"))
                   (bytes_of_string "what do ya want for nothing?"))) =
  "5bdcc146bf60754e6a042426089575c75a003f089d2739839dec58b964ec3843"%string.
Proof. vm_compute. reflexivity. Qed.

Example base32_foobar :
  base32.EncodeToString (bytes_of_string "foobar") = "MZXW6YTBOI"%string
  /\ base32.EncodeToString (bytes_of_string "foob") = "MZXW6YQ"%string
  /\ base32.EncodeToString (bytes_of_string "foo") = "MZXW6"%string
  /\ base32.EncodeToString (bytes_of_string "fo") = "MZXQ"%string
  /\ base32.EncodeToString (bytes_of_string "f") = "MY"%string.
Proof. vm_compute. repeat split. Qed.

(** * Text *)

Section Text.

Open Scope string_scope.

Lemma append_nil_r (s : string) : s ++ "" = s.
Proof. induction s as [|c s IH]; simpl; [reflexivity | now rewrite IH]. Qed.

Lemma append_assoc (a b c : string) : (a ++ b) ++ c = a ++ (b ++ c).
Proof. induction a as [|x a IH]; simpl; [reflexivity | now rewrite IH]. Qed.

Lemma bytes_of_string_length (s : string) :
  List.length (bytes_of_string s) = String.length s.
Proof. induction s as [|c s IH]; simpl; [reflexivity | now rewrite IH]. Qed.

Lemma bytes_of_string_app (a b : string) :
  bytes_of_string (a ++ b) = (bytes_of_string a ++ bytes_of_string b)%list.
Proof. induction a as [|x a IH]; simpl; [reflexivity | now rewrite IH]. Qed.

Lemma bytes_of_list_ascii (l : list ascii) :
  bytes_of_string (string_of_list_ascii l) = map byte_of_ascii l.
Proof. induction l as [|c l IH]; simpl; [reflexivity | now rewrite IH]. Qed.

Lemma eqb_empty (s : string) : String.eqb s "" = true <-> s = "".
Proof. apply String.eqb_eq. Qed.

Lemma lacks_app c a b : lacks c a -> lacks c b -> lacks c (a ++ b).
Proof. induction a as [|x a IH]; simpl; intuition. Qed.

Lemma lacks_of_list c l :
  Forall (fun a => a <> c) l -> lacks c (string_of_list_ascii l).
Proof. induction 1; simpl; auto. Qed.

Lemma Split_nonempty s c : strings.Split s c <> [].
Proof.
  destruct s as [|a s]; simpl; [discriminate|].
  destruct (Ascii.eqb a c); [discriminate|].
  destruct (strings.Split s c); discriminate.
Qed.

(** A text without the separator is a single piece. *)
Lemma Split_lacks s c : lacks c s -> strings.Split s c = [s].
Proof.
  induction s as [|a s IH]; simpl; [reflexivity|].
  intros [Hne Hs]. apply Ascii.eqb_neq in Hne. rewrite Hne, (IH Hs).
  reflexivity.
Qed.

(** And conversely: a single piece means no separator. *)
Lemma Split_single s c :
  (List.length (strings.Split s c) < 2)%nat -> lacks c s.
Proof.
  induction s as [|a s IH]; simpl; [trivial|].
  destruct (Ascii.eqb_spec a c) as [->|Hne].
  - pose proof (Split_nonempty s c).
    destruct (strings.Split s c); simpl; [congruence | lia].
  - pose proof (Split_nonempty s c).
    destruct (strings.Split s c) as [|p ps] eqn:E; [congruence|].
    simpl in *. intros H0. split; [assumption | apply IH; assumption].
Qed.

(** The first separator ends the first piece. *)
Lemma Split_app a b c :
  lacks c a ->
  strings.Split (a ++ String c b) c = a :: strings.Split b c.
Proof.
  induction a as [|x a IH]; simpl.
  - now rewrite Ascii.eqb_refl.
  - intros [Hne Ha]. apply Ascii.eqb_neq in Hne.
    now rewrite Hne, (IH Ha).
Qed.

(** Joining the pieces with the separator gives the text back. *)
Lemma Join_Split s c : strings.Join (strings.Split s c) (String c "") = s.
Proof.
  induction s as [|a s IH]; simpl; [reflexivity|].
  pose proof (Split_nonempty s c) as Hne.
  destruct (Ascii.eqb_spec a c) as [->|Hac].
  - destruct (strings.Split s c) as [|p ps]; [congruence|].
    simpl. now rewrite <- IH.
  - destruct (strings.Split s c) as [|p ps]; [congruence|].
    rewrite <- IH. destruct ps; reflexivity.
Qed.

Lemma ToUpper_length s : String.length (strings.ToUpper s) = String.length s.
Proof. induction s as [|a s IH]; simpl; [reflexivity | now rewrite IH]. Qed.

End Text.

(** * Signature text *)

Section SignatureText.

Open Scope string_scope.

Lemma all_in_app l a b : all_in l a -> all_in l b -> all_in l (a ++ b).
Proof. induction a as [|x a IH]; simpl; intuition. Qed.

Lemma all_in_lacks l c s : ~ In c l -> all_in l s -> lacks c s.
Proof.
  intros Hc. induction s as [|a s IH]; simpl; [trivial|].
  intros [Ha Hs]. split; [congruence | auto].
Qed.

Lemma land31_range b : 0 <= Z.land b 31 < 32.
Proof.
  change 31 with (Z.ones 5). rewrite Z.land_ones by lia.
  apply Z.mod_pos_bound. lia.
Qed.

Lemma encode_alphabet b : In (base32.encode b) alphabet.
Proof.
  unfold base32.encode. apply nth_In.
  pose proof (land31_range b). change (List.length _) with 32%nat. lia.
Qed.

Lemma chars_alphabet n bs : all_in alphabet (base32.chars n bs).
Proof.
  unfold base32.chars. induction (firstn n bs) as [|b l IH]; simpl.
  - exact I.
  - split; [apply encode_alphabet | exact IH].
Qed.

Lemma EncodeToString_quantum s0 s1 s2 s3 s4 rest :
  base32.EncodeToString (s0 :: s1 :: s2 :: s3 :: s4 :: rest) =
  base32.chars 8 (base32.blocks s0 s1 s2 s3 s4) ++ base32.EncodeToString rest.
Proof. reflexivity. Qed.

Lemma EncodeToString_alphabet_upto n :
  forall src, (List.length src <= n)%nat ->
              all_in alphabet (base32.EncodeToString src).
Proof.
  induction n as [|n IH]; intros src Hlen.
  - destruct src; simpl in Hlen; [exact I | lia].
  - destruct src as [|s0 [|s1 [|s2 [|s3 [|s4 rest]]]]];
      try apply chars_alphabet; [exact I|].
    rewrite EncodeToString_quantum. apply all_in_app.
    + apply chars_alphabet.
    + apply IH. simpl in Hlen. lia.
Qed.

(** The encoder only writes characters of the alphabet A-Z, 2-7. *)
Lemma EncodeToString_alphabet src :
  all_in alphabet (base32.EncodeToString src).
Proof. apply (EncodeToString_alphabet_upto (List.length src)). lia. Qed.

Lemma upper_byte_alphabet c : In c alphabet -> strings.upper_byte c = c.
Proof.
  unfold alphabet. simpl.
  intros H; repeat (destruct H as [<-|H]; [reflexivity|]); destruct H.
Qed.

(** [ToUpper] leaves text over the alphabet as it is. *)
Lemma ToUpper_alphabet s : all_in alphabet s -> strings.ToUpper s = s.
Proof.
  induction s as [|a s IH]; simpl; [reflexivity|].
  intros [Ha Hs]. now rewrite (upper_byte_alphabet a Ha), (IH Hs).
Qed.

Lemma ToUpper_EncodeToString src :
  strings.ToUpper (base32.EncodeToString src) = base32.EncodeToString src.
Proof. apply ToUpper_alphabet, EncodeToString_alphabet. Qed.

Lemma hyphen_not_in_alphabet : ~ In "-"%char alphabet.
Proof.
  unfold alphabet. simpl.
  intros H; repeat (destruct H as [H|H]; [discriminate|]); destruct H.
Qed.

Lemma out_length s : List.length (sha256.out s) = sha256.Size.
Proof. reflexivity. Qed.

Lemma Sum256_length data : List.length (sha256.Sum256 data) = 32%nat.
Proof. unfold sha256.Sum256. apply out_length. Qed.

Lemma hmac_Sum_length h : List.length (hmac.Sum h) = 32%nat.
Proof. unfold hmac.Sum. apply Sum256_length. Qed.

Lemma slice_to_ok s n :
  0 <= n <= Z.of_nat (List.length s) ->
  slice_to s n = Done (firstn (Z.to_nat n) s).
Proof.
  intros [H0 H1]. unfold slice_to.
  apply Z.leb_le in H0, H1. now rewrite H0, H1.
Qed.

End SignatureText.

(** * Constant-time comparison *)

Lemma accumulate_same v x : subtle.accumulate v x x = v.
Proof.
  revert v. induction x as [|a x IH]; intros v; simpl; [reflexivity|].
  now rewrite IH, Z.lxor_nilpotent, Z.lor_0_r.
Qed.

Lemma ConstantTimeCompare_same x : subtle.ConstantTimeCompare x x = 1.
Proof.
  unfold subtle.ConstantTimeCompare.
  now rewrite Nat.eqb_refl, accumulate_same.
Qed.

(** * The 26-character encoding *)

Section Encoding.

Lemma zrange_In n x : 0 <= x < Z.of_nat n -> In x (zrange n).
Proof.
  intros H. unfold zrange. apply in_map_iff. exists (Z.to_nat x). split.
  - lia.
  - apply in_seq. lia.
Qed.

Lemma forall_zrange n (P : Z -> bool) :
  forallb P (zrange n) = true -> forall x, 0 <= x < Z.of_nat n -> P x = true.
Proof.
  intros H x Hx. rewrite forallb_forall in H. apply H, zrange_In, Hx.
Qed.

Lemma land_ones_range b k : 0 <= k -> 0 <= Z.land b (Z.ones k) < 2 ^ k.
Proof.
  intros Hk. rewrite Z.land_ones by assumption. apply Z.mod_pos_bound. lia.
Qed.

(** Closes [forall x y z, range -> range -> range -> f x y z = b] by running
    through the ranges. *)
Ltac enumerate n1 n2 n3 :=
  intros x y z Hx Hy Hz; apply Z.eqb_eq;
  revert z Hz; apply (forall_zrange n3);
  revert y Hy; apply (forall_zrange n2);
  revert x Hx; apply (forall_zrange n1);
  vm_compute; reflexivity.

(** Reading back what the encoder wrote for a byte, quintet by quintet.
    [x] stands for the bits taken from the byte before, which the [uint8]
    shift drops, and [y] for those of the byte after, which the shift to the
    right drops. *)
Let D (q : Z) : Z := ulid.dec (byte_of_ascii (ulid.encode q)).

Lemma first_char_small :
  forall x y b : Z, 0 <= x < 1 -> 0 <= y < 1 -> 0 <= b < 256 ->
  Z.b2z (55 <? byte_of_ascii (ulid.encode (Z.shiftr (Z.land b 224) 5))) = 0.
Proof. enumerate 1%nat 1%nat 256%nat. Qed.

Lemma byte0_back :
  forall x y b : Z, 0 <= x < 1 -> 0 <= y < 1 -> 0 <= b < 256 ->
  Z.lor (shl8 (D (Z.shiftr (Z.land b 224) 5)) 5) (D (Z.land b 31)) = b.
Proof. enumerate 1%nat 1%nat 256%nat. Qed.

Lemma byte1_back :
  forall x b1 y : Z, 0 <= x < 1 -> 0 <= b1 < 256 -> 0 <= y < 4 ->
  Z.lor (shl8 (D (Z.shiftr (Z.land b1 248) 3)) 3)
        (Z.shiftr (D (Z.lor (Z.shiftl (Z.land b1 7) 2) y)) 2) = b1.
Proof. enumerate 1%nat 256%nat 4%nat. Qed.

Lemma byte2_back :
  forall x b2 y : Z, 0 <= x < 8 -> 0 <= b2 < 256 -> 0 <= y < 16 ->
  Z.lor (Z.lor (shl8 (D (Z.lor (Z.shiftl x 2) (Z.shiftr (Z.land b2 192) 6))) 6)
               (shl8 (D (Z.shiftr (Z.land b2 62) 1)) 1))
        (Z.shiftr (D (Z.lor (Z.shiftl (Z.land b2 1) 4) y)) 4) = b2.
Proof. enumerate 8%nat 256%nat 16%nat. Qed.

Lemma byte3_back :
  forall x b3 y : Z, 0 <= x < 2 -> 0 <= b3 < 256 -> 0 <= y < 2 ->
  Z.lor (shl8 (D (Z.lor (Z.shiftl x 4) (Z.shiftr (Z.land b3 240) 4))) 4)
        (Z.shiftr (D (Z.lor (Z.shiftl (Z.land b3 15) 1) y)) 1) = b3.
Proof. enumerate 2%nat 256%nat 2%nat. Qed.

Lemma byte4_back :
  forall x b4 y : Z, 0 <= x < 16 -> 0 <= b4 < 256 -> 0 <= y < 8 ->
  Z.lor (Z.lor (shl8 (D (Z.lor (Z.shiftl x 1) (Z.shiftr (Z.land b4 128) 7))) 7)
               (shl8 (D (Z.shiftr (Z.land b4 124) 2)) 2))
        (Z.shiftr (D (Z.lor (Z.shiftl (Z.land b4 3) 3) y)) 3) = b4.
Proof. enumerate 16%nat 256%nat 8%nat. Qed.

Lemma byte5_back :
  forall x y b5 : Z, 0 <= x < 4 -> 0 <= y < 1 -> 0 <= b5 < 256 ->
  Z.lor (shl8 (D (Z.lor (Z.shiftl x 3) (Z.shiftr (Z.land b5 224) 5))) 5)
        (D (Z.land b5 31)) = b5.
Proof. enumerate 4%nat 1%nat 256%nat. Qed.

End Encoding.

Section Roundtrip.

Lemma shiftr_land_range b m k j :
  Z.shiftr m k = Z.ones j -> 0 <= j ->
  0 <= Z.shiftr (Z.land b m) k < 2 ^ j.
Proof.
  intros Hm Hj. rewrite Z.shiftr_land, Hm. now apply land_ones_range.
Qed.

Lemma first_char_ok b :
  is_byte b ->
  (55 <? byte_of_ascii (ulid.encode (Z.shiftr (Z.land b 224) 5))) = false.
Proof.
  intros Hb.
  pose proof (first_char_small 0 0 b ltac:(lia) ltac:(lia) Hb) as H.
  destruct (55 <? _); [discriminate H | reflexivity].
Qed.

Ltac range :=
  match goal with
  | |- 0 <= Z.land ?b 7 < _ => exact (land_ones_range b 3 ltac:(lia))
  | |- 0 <= Z.land ?b 1 < _ => exact (land_ones_range b 1 ltac:(lia))
  | |- 0 <= Z.land ?b 15 < _ => exact (land_ones_range b 4 ltac:(lia))
  | |- 0 <= Z.land ?b 3 < _ => exact (land_ones_range b 2 ltac:(lia))
  | |- 0 <= Z.shiftr (Z.land ?b 192) 6 < _ =>
      exact (shiftr_land_range b 192 6 2 eq_refl ltac:(lia))
  | |- 0 <= Z.shiftr (Z.land ?b 240) 4 < _ =>
      exact (shiftr_land_range b 240 4 4 eq_refl ltac:(lia))
  | |- 0 <= Z.shiftr (Z.land ?b 128) 7 < _ =>
      exact (shiftr_land_range b 128 7 1 eq_refl ltac:(lia))
  | |- 0 <= Z.shiftr (Z.land ?b 224) 5 < _ =>
      exact (shiftr_land_range b 224 5 3 eq_refl ltac:(lia))
  | _ => assumption
  | _ => lia
  end.

(** Five bytes come back from the eight characters written for them. *)
Lemma dec5_enc5 b1 b2 b3 b4 b5 :
  is_byte b1 -> is_byte b2 -> is_byte b3 -> is_byte b4 -> is_byte b5 ->
  match map (fun q => ulid.dec (byte_of_ascii (ulid.encode q)))
            (ulid.enc5 b1 b2 b3 b4 b5) with
  | [d2; d3; d4; d5; d6; d7; d8; d9] =>
      ulid.dec5 d2 d3 d4 d5 d6 d7 d8 d9 = [b1; b2; b3; b4; b5]
  | _ => False
  end.
Proof.
  intros H1 H2 H3 H4 H5. cbv [ulid.enc5 ulid.dec5 map].
  f_equal; [apply (byte1_back 0); range|].
  f_equal; [apply byte2_back; range|].
  f_equal; [apply byte3_back; range|].
  f_equal; [apply byte4_back; range|].
  f_equal. apply (byte5_back _ 0); range.
Qed.

(** [Parse] undoes [String]. *)
Lemma Parse_String id : ulid.wf id -> ulid.Parse (ulid.String id) = (id, None).
Proof.
  intros [Hlen Hall].
  destruct id as [|b0 [|b1 [|b2 [|b3 [|b4 [|b5 [|b6 [|b7 [|b8 [|b9 [|b10 [|b11
    [|b12 [|b13 [|b14 [|b15 [|? ?]]]]]]]]]]]]]]]]]; try discriminate Hlen.
  clear Hlen.
  repeat match goal with
         | H : Forall _ (_ :: _) |- _ => inversion_clear H
         end.
  unfold ulid.Parse, ulid.String. rewrite bytes_of_list_ascii, map_map.
  cbv [ulid.quintets nth app].
  pose proof (dec5_enc5 b1 b2 b3 b4 b5) as G1.
  pose proof (dec5_enc5 b6 b7 b8 b9 b10) as G2.
  pose proof (dec5_enc5 b11 b12 b13 b14 b15) as G3.
  cbv [ulid.enc5 map] in *.
  cbv [List.length ulid.EncodedSize Nat.eqb negb nth].
  rewrite first_char_ok by assumption.
  cbv [ulid.decode nth]. rewrite G1, G2, G3 by assumption.
  rewrite (byte0_back 0 0) by range. reflexivity.
Qed.

Lemma String_length id : String.length (ulid.String id) = 26%nat.
Proof.
  unfold ulid.String. rewrite <- bytes_of_string_length, bytes_of_list_ascii.
  reflexivity.
Qed.

Lemma encode_Encoding q :
  In (ulid.encode q) (list_ascii_of_string ulid.Encoding).
Proof.
  unfold ulid.encode.
  destruct (nth_in_or_default (Z.to_nat q)
              (list_ascii_of_string ulid.Encoding) "0"%char) as [H|H].
  - exact H.
  - rewrite H. simpl. auto.
Qed.

(** No hyphen among the characters of an encoded value. *)
Lemma String_lacks_hyphen id : lacks "-" (ulid.String id).
Proof.
  unfold ulid.String. apply lacks_of_list, Forall_map, Forall_forall.
  intros q _ Heq. pose proof (encode_Encoding q) as H. rewrite Heq in H.
  simpl in H.
  repeat (destruct H as [H|H]; [discriminate|]); destruct H.
Qed.

End Roundtrip.

(** * Values made by [ulid.New] *)

Section NewValues.

Lemma uint8_byte x : is_byte (uint8 x).
Proof. exact (land_ones_range x 8 ltac:(lia)). Qed.

Lemma be_length n x : List.length (ulid.be n x) = n.
Proof. unfold ulid.be. now rewrite length_map, length_rev, length_seq. Qed.

Lemma be_bytes n x : Forall is_byte (ulid.be n x).
Proof.
  unfold ulid.be. apply Forall_map, Forall_forall.
  intros i _. apply uint8_byte.
Qed.

Lemma zero_wf : ulid.wf ulid.zero.
Proof.
  split; [reflexivity|]. unfold ulid.zero.
  apply Forall_forall. intros b Hb. apply repeat_spec in Hb. subst.
  unfold is_byte; lia.
Qed.

Lemma triple_inj {A B C} (a a' : A) (b b' : B) (c c' : C) :
  (a, b, c) = (a', b', c') -> a = a' /\ b = b' /\ c = c'.
Proof. intros H. injection H as -> -> ->. auto. Qed.

Lemma MonotonicRead_bytes m t rnd m' e err :
  ulid.MonotonicRead m t rnd = (m', e, err) ->
  List.length e = 10%nat /\ Forall is_byte e.
Proof.
  unfold ulid.MonotonicRead.
  destruct (negb (ulid.IsZero (ulid.entropy m)) && (ulid.ms m =? t)).
  - destruct (ulid.Add _ _) as [u overflow].
    intros H. apply triple_inj in H as (_ & <- & _).
    unfold ulid.AppendTo. split.
    + now rewrite length_app, !be_length.
    + apply Forall_app; split; apply be_bytes.
  - intros H. apply triple_inj in H as (_ & <- & _).
    split; [apply be_length | apply be_bytes].
Qed.

(** Every value that [New] returns is sixteen bytes. *)
Lemma New_wf t m rnd id err m' :
  ulid.New t m rnd = (id, err, m') -> ulid.wf id.
Proof.
  unfold ulid.New. destruct (ulid.maxTime <? t).
  - intros H. apply triple_inj in H as (<- & _ & _). apply zero_wf.
  - destruct (ulid.MonotonicRead m t rnd) as [[m1 e] err1] eqn:E.
    intros H. apply triple_inj in H as (<- & _ & _).
    apply MonotonicRead_bytes in E as [He Hb]. split.
    + now rewrite length_app, be_length, He.
    + apply Forall_app; split; [apply be_bytes | exact Hb].
Qed.

(** [New] without an error: the time was in range and the value starts
    with its six bytes. *)
Lemma New_ok t m rnd id m' :
  ulid.New t m rnd = (id, None, m') ->
  t <= ulid.maxTime /\ exists e, id = ulid.be 6 t ++ e.
Proof.
  unfold ulid.New. destruct (Z.ltb_spec ulid.maxTime t) as [Hbig|Hok].
  - intros H. apply triple_inj in H as (_ & H & _). discriminate H.
  - destruct (ulid.MonotonicRead m t rnd) as [[m1 e] err1].
    intros H. apply triple_inj in H as (<- & _ & _).
    split; [exact Hok | now exists e].
Qed.

Lemma testbit_above t k n :
  0 <= t < 2 ^ k -> k <= n -> Z.testbit t n = false.
Proof.
  intros [H0 Hk] Hn. destruct (Z.eq_dec t 0) as [->|Hne].
  - apply Z.testbit_0_l.
  - apply Z.bits_above_log2; [exact H0|].
    assert (Z.log2 t < k) by (apply Z.log2_lt_pow2; lia). lia.
Qed.

Lemma testbit_byte_at t k n :
  0 <= k -> 0 <= n ->
  Z.testbit (Z.shiftl (uint8 (Z.shiftr t k)) k) n =
  Z.testbit t n && ((k <=? n) && (n <? k + 8)).
Proof.
  intros Hk Hn. rewrite Z.shiftl_spec by exact Hn.
  destruct (Z.leb_spec k n) as [Hle|Hlt].
  - unfold uint8. rewrite Z.land_spec, Z.shiftr_spec by lia.
    replace (n - k + k) with n by lia.
    change 255 with (Z.ones 8). rewrite Z.testbit_ones_nonneg by lia.
    f_equal. simpl. destruct (Z.ltb_spec (n - k) 8), (Z.ltb_spec n (k + 8));
      try reflexivity; lia.
  - rewrite Z.testbit_neg_r by lia. now rewrite andb_false_r.
Qed.

(** The six leading bytes spell the time. *)
Lemma ULID_Time_be t e :
  0 <= t <= ulid.maxTime -> ulid.ULID_Time (ulid.be 6 t ++ e) = t.
Proof.
  intros [H0 Hmax]. unfold ulid.maxTime in Hmax.
  cbv [ulid.be seq rev app map nth ulid.ULID_Time].
  change (8 * Z.of_nat 0) with 0. change (8 * Z.of_nat 1) with 8.
  change (8 * Z.of_nat 2) with 16. change (8 * Z.of_nat 3) with 24.
  change (8 * Z.of_nat 4) with 32. change (8 * Z.of_nat 5) with 40.
  rewrite <- (Z.shiftl_0_r (uint8 (Z.shiftr t 0))).
  apply Z.bits_inj'. intros n Hn.
  rewrite !Z.lor_spec, !testbit_byte_at by lia.
  destruct (Z.testbit t n) eqn:Ht; simpl; [|reflexivity].
  assert (n < 48).
  { destruct (Z.lt_ge_cases n 48) as [|Hge]; [assumption|].
    rewrite (testbit_above t 48 n) in Ht by lia. discriminate. }
  repeat match goal with
         | |- context [?a <=? ?b] => destruct (Z.leb_spec a b); try lia
         | |- context [?a <? ?b] => destruct (Z.ltb_spec a b); try lia
         end; reflexivity.
Qed.

End NewValues.

(** * Signing *)

Section Signing.

Open Scope string_scope.

Lemma hmac_two_writes key a b :
  hmac.Sum (hmac.Write (hmac.Write (hmac.New key) a) b) = HMAC_SHA256 key (a ++ b).
Proof.
  unfold hmac.Sum, hmac.Write, hmac.New, HMAC_SHA256, hmac.pad,
    sha256.BlockSize; simpl.
  now rewrite <- app_assoc.
Qed.

Lemma hmac_one_write key a :
  hmac.Sum (hmac.Write (hmac.New key) a) = HMAC_SHA256 key a.
Proof.
  unfold hmac.Sum, hmac.Write, hmac.New, HMAC_SHA256, hmac.pad,
    sha256.BlockSize; simpl.
  reflexivity.
Qed.

(** What is handed to the truncation, whatever the metadata. *)
Lemma generateSignature_unfold r u m :
  generateSignature r u m =
  match slice_to (HMAC_SHA256 (secretKey r)
                    (bytes_of_string u ++ bytes_of_string m))
                 (signatureLength r) with
  | Done truncated => Done (strings.ToUpper (base32.EncodeToString truncated))
  | Panic => Panic
  end.
Proof.
  unfold generateSignature. destruct (String.eqb_spec m "") as [->|Hm]; simpl.
  - now rewrite hmac_one_write, app_nil_r.
  - now rewrite hmac_two_writes.
Qed.

Lemma HMAC_SHA256_length key msg : List.length (HMAC_SHA256 key msg) = 32%nat.
Proof. unfold HMAC_SHA256. apply Sum256_length. Qed.

Lemma generateSignature_spec r u m :
  0 <= signatureLength r <= 32 ->
  generateSignature r u m =
  Done (spec_signature (secretKey r) (signatureLength r) u m).
Proof.
  intros Hn. rewrite generateSignature_unfold, slice_to_ok.
  - now rewrite ToUpper_EncodeToString.
  - rewrite HMAC_SHA256_length. lia.
Qed.

(** The truncation panics exactly outside [0, 32]. *)
Lemma generateSignature_panic r u m :
  generateSignature r u m = Panic <-> ~ 0 <= signatureLength r <= 32.
Proof.
  rewrite generateSignature_unfold. unfold slice_to.
  rewrite HMAC_SHA256_length.
  destruct (Z.leb_spec 0 (signatureLength r));
    destruct (Z.leb_spec (signatureLength r) (Z.of_nat 32)); simpl;
    split; try discriminate; try lia; intros _; reflexivity.
Qed.

Lemma generateSignature_alphabet r u m sig :
  generateSignature r u m = Done sig -> all_in alphabet sig.
Proof.
  rewrite generateSignature_unfold.
  destruct (slice_to _ _) as [t|]; [|discriminate].
  intros [= <-]. rewrite ToUpper_EncodeToString. apply EncodeToString_alphabet.
Qed.

Lemma generateSignature_lacks_hyphen r u m sig :
  generateSignature r u m = Done sig -> lacks "-" sig.
Proof.
  intros H. apply (all_in_lacks alphabet).
  - exact hyphen_not_in_alphabet.
  - exact (generateSignature_alphabet _ _ _ _ H).
Qed.

(** The signature does not look at the entropy state. *)
Lemma generateSignature_entropy k n e1 e2 u m :
  generateSignature (mkRigid k n e1) u m = generateSignature (mkRigid k n e2) u m.
Proof. reflexivity. Qed.

End Signing.

(** * Generating and verifying *)

Section GenerateVerify.

Open Scope string_scope.

Lemma pair_inj {A B} (a a' : A) (b b' : B) :
  (a, b) = (a', b') -> a = a' /\ b = b'.
Proof. intros H. injection H as -> ->. auto. Qed.

Lemma Done_inj {A} (a b : A) : Done a = Done b -> a = b.
Proof. intros H. injection H as ->. reflexivity. Qed.

(** A call of [Generate] that returns no error made a value with [New],
    signed its text and assembled the parts. *)
Lemma Generate_done r e md s r' :
  Generate r e md = (Done (s, None), r') ->
  exists id m' sig,
    ulid.New (ulid.Timestamp (now e)) (entropy r) (rnd e) = (id, None, m')
    /\ r' = mkRigid (secretKey r) (signatureLength r) m'
    /\ generateSignature r (ulid.String id) (hd "" md) = Done sig
    /\ s = assemble (ulid.String id) sig (hd "" md).
Proof.
  unfold Generate.
  destruct (ulid.New _ _ _) as [[id err] m'] eqn:E.
  destruct err as [err|].
  - intros H. apply pair_inj in H as [H _]. apply Done_inj in H.
    apply pair_inj in H as [_ H]. discriminate H.
  - change (match md with m0 :: _ => m0 | [] => "" end) with (hd "" md).
    destruct (generateSignature r (ulid.String id) (hd "" md)) as [sig|] eqn:Hs.
    + intros H. apply pair_inj in H as [H <-]. apply Done_inj in H.
      apply pair_inj in H as [<- _].
      exists id, m', sig. repeat split; [exact Hs|]. unfold assemble.
      now destruct (String.eqb (hd "" md) "").
    + intros H. apply pair_inj in H as [H _]. discriminate H.
Qed.

(** The pieces of an assembled identifier. *)
Lemma Split_assemble u sig m :
  lacks "-" u -> lacks "-" sig ->
  strings.Split (assemble u sig m) "-" =
  u :: sig :: (if String.eqb m "" then [] else strings.Split m "-").
Proof.
  intros Hu Hsig. unfold assemble. destruct (String.eqb m "").
  - change (u ++ "-" ++ sig) with (u ++ String "-" sig).
    now rewrite Split_app, Split_lacks.
  - rewrite append_assoc.
    change (u ++ ("-" ++ sig) ++ "-" ++ m)
      with (u ++ String "-" (sig ++ String "-" m)).
    now rewrite !Split_app.
Qed.

(** [Verify] on an assembled identifier whose signature is the one the
    instance computes: one comparison, then success. *)
Lemma Verify_assembled r u sig m :
  lacks "-" u -> snd (ulid.Parse u) = None ->
  generateSignature r u m = Done sig ->
  Verify_traced r (assemble u sig m) =
  (Done (mkVerifyResult true u m, None),
   [ConstantTimeCompare_call (bytes_of_string sig) (bytes_of_string sig)]).
Proof.
  intros Hu Hparse Hsig.
  pose proof (generateSignature_lacks_hyphen _ _ _ _ Hsig) as Hl.
  unfold Verify_traced. rewrite (Split_assemble u sig m Hu Hl).
  assert (Hmeta :
    (if (2 <? List.length
                (u :: sig :: (if String.eqb m "" then [] else strings.Split m "-")))%nat
     then strings.Join
            (skipn 2 (u :: sig ::
                        (if String.eqb m "" then [] else strings.Split m "-"))) "-"
     else "") = m).
  { destruct (String.eqb_spec m "") as [->|Hm]; [reflexivity|].
    pose proof (Join_Split m "-") as HJ.
    pose proof (Split_nonempty m "-") as Hne.
    destruct (strings.Split m "-") as [|p ps]; [congruence|]. exact HJ. }
  rewrite Hmeta.
  cbn [List.length Nat.ltb Nat.leb nth].
  rewrite Hparse. unfold lift. rewrite Hsig.
  unfold bind, compare, ret.
  rewrite Nat.eqb_refl. cbn [negb].
  rewrite ConstantTimeCompare_same. reflexivity.
Qed.

(** A generated identifier passes [Verify] on the instance that made it and
    gives its parts back. *)
Lemma Verify_Generate r e md s r' :
  Generate r e md = (Done (s, None), r') ->
  exists id,
    s = assemble (ulid.String id)
          (nth 1 (strings.Split s "-") "") (hd "" md)
    /\ ulid.wf id
    /\ nth 0 (strings.Split s "-") "" = ulid.String id
    /\ Verify r' s = Done (mkVerifyResult true (ulid.String id) (hd "" md), None)
    /\ Verify r s = Done (mkVerifyResult true (ulid.String id) (hd "" md), None).
Proof.
  intros H. apply Generate_done in H as (id & m' & sig & HN & -> & Hs & ->).
  pose proof (New_wf _ _ _ _ _ _ HN) as Hwf.
  pose proof (String_lacks_hyphen id) as Hu.
  pose proof (generateSignature_lacks_hyphen _ _ _ _ Hs) as Hl.
  assert (Hp : snd (ulid.Parse (ulid.String id)) = None)
    by now rewrite Parse_String.
  exists id. rewrite (Split_assemble _ _ _ Hu Hl). cbn [nth].
  split; [reflexivity|]. split; [exact Hwf|]. split; [reflexivity|].
  split; unfold Verify.
  - rewrite (Verify_assembled _ _ sig); [reflexivity | assumption.. | exact Hs].
  - rewrite (Verify_assembled _ _ sig); [reflexivity | assumption.. ].
Qed.

End GenerateVerify.

(** * Properties of the identifier format *)

Section Claims.

Open Scope string_scope.

(** On an instance whose signature length is in range, [Generate] returns:
    it does not panic, and its error is the one [ulid.New] gave. *)
Lemma Generate_returns r e md :
  0 <= signatureLength r <= 32 ->
  exists s r',
    Generate r e md =
    (Done (s, snd (fst (ulid.New (ulid.Timestamp (now e)) (entropy r) (rnd e)))),
     r').
Proof.
  intros Hn. unfold Generate.
  destruct (ulid.New _ _ _) as [[id err] m']. cbn [fst snd].
  destruct err as [err|]; [eauto|].
  rewrite generateSignature_spec by exact Hn. eauto.
Qed.

(** C1. For every non-empty secret key, every signature length in [4,32]
    and every metadata string [m] (the empty string and strings with
    hyphens included), [Verify] on the string that [Generate(m)] returned
    on the same instance gives [Valid = true] and [Metadata = m], and no
    error.  The [ULID] of the result is the first segment of the string. *)
Theorem C1_verify_generate_roundtrip :
  forall (r : Rigid) (e : Env) (m s : string) (r' : Rigid),
    secretKey r <> [] ->
    4 <= signatureLength r <= 32 ->
    Generate r e [m] = (Done (s, None), r') ->
    Verify r' s =
    Done (mkVerifyResult true (nth 0 (strings.Split s "-") "") m, None).
Proof.
  intros r e m s r' _ _ H.
  apply Verify_Generate in H as (id & _ & _ & -> & H & _). exact H.
Qed.

Lemma C1_witness :
  Verify r8_after id_meta =
  Done (mkVerifyResult true (nth 0 (strings.Split id_meta "-") "") "a-b--c", None).
Proof.
  apply (C1_verify_generate_roundtrip r8 env0 "a-b--c" id_meta r8_after).
  - discriminate.
  - simpl. lia.
  - vm_compute. reflexivity.
Defined.

(** C2. For every secret key, id text, metadata string and configured
    length [N] in [4,32], the signature text is the unpadded base32 text,
    over the upper-case alphabet, of the first [N] bytes of
    HMAC-SHA-256(key, id_text || metadata), the two byte strings being
    concatenated in that order with nothing between them. *)
Theorem C2_signature_text :
  forall (key : list Z) (N : Z) (st : ulid.MonotonicEntropy)
         (id_text metadata : string),
    4 <= N <= 32 ->
    generateSignature (mkRigid key N st) id_text metadata =
    Done (spec_signature key N id_text metadata)
    /\ all_in alphabet (spec_signature key N id_text metadata).
Proof.
  intros key N st u m HN. split.
  - apply generateSignature_spec. simpl. lia.
  - apply EncodeToString_alphabet.
Qed.

Lemma C2_witness :
  generateSignature r8 "01ARYZ6S4138J9P7RGM1P9DBZJ" "a-b--c" =
  Done (spec_signature testSecretKey 8 "01ARYZ6S4138J9P7RGM1P9DBZJ" "a-b--c")
  /\ all_in alphabet
       (spec_signature testSecretKey 8 "01ARYZ6S4138J9P7RGM1P9DBZJ" "a-b--c").
Proof.
  apply (C2_signature_text testSecretKey 8 (ulid.Monotonic 0)). lia.
Defined.

Example signature_value :
  spec_signature testSecretKey 8 "01ARYZ6S4138J9P7RGM1P9DBZJ" "a-b--c" =
  "5R4F67TEB3JEU".
Proof. vm_compute. reflexivity. Qed.


(** The three values [Verify] takes from the pieces of its input. *)
Lemma Verify_traced_unfold r s :
  let parts := strings.Split s "-" in
  let ulidStr := nth 0 parts "" in
  let signature := nth 1 parts "" in
  let metadata := if (2 <? List.length parts)%nat
                  then strings.Join (skipn 2 parts) "-" else "" in
  Verify_traced r s =
  if (List.length parts <? 2)%nat
  then (Done (zeroVerifyResult, Some ErrInvalidFormat), [])
  else match snd (ulid.Parse ulidStr) with
       | Some _ => (Done (zeroVerifyResult, Some ErrInvalidULID), [])
       | None =>
           match generateSignature r ulidStr metadata with
           | Panic => (Panic, [])
           | Done expected =>
               if negb (String.length signature =? String.length expected)%nat
               then (Done (zeroVerifyResult, Some ErrIntegrityFailure), [])
               else
                 let x := bytes_of_string signature in
                 let y := bytes_of_string expected in
                 (Done (if negb (subtle.ConstantTimeCompare x y =? 1)%Z
                        then (zeroVerifyResult, Some ErrIntegrityFailure)
                        else (mkVerifyResult true ulidStr metadata, None)),
                  [ConstantTimeCompare_call x y])
           end
       end.
Proof.
  cbv zeta. unfold Verify_traced.
  destruct (List.length (strings.Split s "-") <? 2)%nat; [reflexivity|].
  destruct (snd (ulid.Parse _)); [reflexivity|].
  unfold lift, bind, compare, ret.
  destruct (generateSignature _ _ _) as [expected|]; [|reflexivity].
  destruct (negb (String.length _ =? String.length expected)%nat);
    [reflexivity|].
  destruct (negb (subtle.ConstantTimeCompare _ _ =? 1)%Z); reflexivity.
Qed.

(** C3. In [Verify], when the length of the supplied signature segment
    differs from the length of the recomputed signature, the call fails with
    the integrity error and no byte comparison has been made; a comparison
    that is made has the supplied and the recomputed signature for arguments
    and they have one length. *)
Theorem C3_length_checked_before_compare :
  forall (r : Rigid) (s : string),
    let parts := strings.Split s "-" in
    let ulidStr := nth 0 parts "" in
    let signature := nth 1 parts "" in
    let metadata := if (2 <? List.length parts)%nat
                    then strings.Join (skipn 2 parts) "-" else "" in
    (forall expected,
        (2 <= List.length parts)%nat ->
        snd (ulid.Parse ulidStr) = None ->
        generateSignature r ulidStr metadata = Done expected ->
        String.length signature <> String.length expected ->
        Verify_traced r s =
        (Done (zeroVerifyResult, Some ErrIntegrityFailure), []))
    /\ (forall x y,
           In (ConstantTimeCompare_call x y) (snd (Verify_traced r s)) ->
           exists expected,
             generateSignature r ulidStr metadata = Done expected
             /\ x = bytes_of_string signature
             /\ y = bytes_of_string expected
             /\ String.length signature = String.length expected
             /\ List.length x = List.length y).
Proof.
  intros r s parts ulidStr signature metadata.
  pose proof (Verify_traced_unfold r s) as HV. cbv zeta in HV.
  fold parts in HV. fold ulidStr signature metadata in HV.
  split.
  - intros expected Hlen Hparse Hsig Hne. rewrite HV.
    apply Nat.ltb_ge in Hlen. rewrite Hlen, Hparse, Hsig.
    apply Nat.eqb_neq in Hne. now rewrite Hne.
  - intros x y. rewrite HV.
    destruct (List.length parts <? 2)%nat; [intros []|].
    destruct (snd (ulid.Parse ulidStr)); [intros []|].
    destruct (generateSignature r ulidStr metadata) as [expected|];
      [|intros []].
    destruct (Nat.eqb_spec (String.length signature) (String.length expected))
      as [Heq|Hne]; [|intros []].
    cbn [negb snd]. intros [H|[]].
    injection H as <- <-. exists expected.
    repeat split; try assumption.
    now rewrite !bytes_of_string_length.
Qed.

Lemma C3_witness :
  Verify_traced r8 id_short =
  (Done (zeroVerifyResult, Some ErrIntegrityFailure), []).
Proof.
  apply (proj1 (C3_length_checked_before_compare r8 id_short) "37UGMCZHMJFTO").
  - vm_compute. lia.
  - vm_compute. reflexivity.
  - vm_compute. reflexivity.
  - vm_compute. lia.
Defined.

(** C4, as stated, fails: ["no-hyphens-here"] has two hyphens, hence three
    segments, and is not rejected as badly formatted. *)
Lemma C4_counterexample :
  ~ (exists v, Verify r8 "no-hyphens-here" = Done (v, Some ErrInvalidFormat)).
Proof. intros [v H]. vm_compute in H. discriminate H. Qed.

(** C4, amended. [Verify("")] and [Verify] of every text without any
    hyphen, such as ["nohyphenshere"], fail with the format error;
    ["no-hyphens-here"] splits into three segments whose first is not an id,
    and fails with the malformed-id error, as ["not-a-ulid-SIGNATURE"] does.
    The result is the zero value every time. *)
Theorem C4_format_and_malformed_id_errors :
  forall r : Rigid,
    (forall s, lacks "-" s ->
               Verify r s = Done (zeroVerifyResult, Some ErrInvalidFormat))
    /\ Verify r "" = Done (zeroVerifyResult, Some ErrInvalidFormat)
    /\ Verify r "nohyphenshere" = Done (zeroVerifyResult, Some ErrInvalidFormat)
    /\ Verify r "no-hyphens-here" = Done (zeroVerifyResult, Some ErrInvalidULID)
    /\ Verify r "not-a-ulid-SIGNATURE" =
       Done (zeroVerifyResult, Some ErrInvalidULID).
Proof.
  intros r. split; [|repeat split].
  intros s Hs. unfold Verify, Verify_traced.
  rewrite (Split_lacks s "-" Hs). reflexivity.
Qed.

Lemma C4_witness :
  Verify r8 bare_id = Done (zeroVerifyResult, Some ErrInvalidFormat).
Proof.
  apply (proj1 (C4_format_and_malformed_id_errors r8) bare_id).
  vm_compute. repeat split; discriminate.
Defined.

(** The three ways [NewRigid] can go. *)
Lemma NewRigid_cases key lens :
  (key = [] /\ NewRigid key lens = (None, Some ErrEmptySecretKey))
  \/ (key <> [] /\ (exists n rest, lens = n :: rest /\ (n < 4 \/ 32 < n))
      /\ NewRigid key lens = (None, Some ErrInvalidSigLength))
  \/ (key <> [] /\ ~ (exists n rest, lens = n :: rest /\ (n < 4 \/ 32 < n))
      /\ NewRigid key lens =
         (Some (mkRigid key (hd DefaultSignatureLength lens) (ulid.Monotonic 0)),
          None)).
Proof.
  unfold NewRigid, MinSignatureLength, MaxSignatureLength.
  destruct key as [|k key]; cbn [List.length Nat.eqb]; [left; auto|].
  right. destruct lens as [|n rest].
  - right. split; [discriminate|]. split; [|reflexivity].
    intros (n & rest & H & _). discriminate H.
  - destruct (Z.ltb_spec n 4) as [H4|H4]; cbn [orb].
    + left. split; [discriminate|]. split; [|reflexivity].
      exists n, rest. split; [reflexivity | lia].
    + destruct (Z.ltb_spec 32 n) as [H32|H32].
      * left. split; [discriminate|]. split; [|reflexivity].
        exists n, rest. split; [reflexivity | lia].
      * right. split; [discriminate|]. split; [|reflexivity].
        intros (n' & rest' & H & Hn). injection H as <- <-. lia.
Qed.

Lemma NewRigid_nonempty key :
  key <> [] ->
  NewRigid key [3] = (None, Some ErrInvalidSigLength)
  /\ NewRigid key [33] = (None, Some ErrInvalidSigLength)
  /\ NewRigid key [4] = (Some (mkRigid key 4 (ulid.Monotonic 0)), None)
  /\ NewRigid key [32] = (Some (mkRigid key 32 (ulid.Monotonic 0)), None)
  /\ NewRigid key [] = (Some (mkRigid key 8 (ulid.Monotonic 0)), None).
Proof.
  intros Hk. destruct key as [|k key]; [congruence|].
  repeat split.
Qed.

(** C5. Construction fails exactly when the secret key is empty or a
    signature length is supplied and lies outside [4,32]; the error is then
    one of the two configuration errors and no instance is returned.
    Otherwise the instance holds the key and the supplied length, or 8 when
    none is supplied.  In particular, with a non-empty key, lengths 3 and 33
    fail, 4 and 32 succeed, and so does leaving the length out. *)
Theorem C5_construction_errors :
  forall (key : list Z) (lens : list Z),
    (snd (NewRigid key lens) <> None <->
     key = [] \/ exists n rest, lens = n :: rest /\ (n < 4 \/ 32 < n))
    /\ (forall err, snd (NewRigid key lens) = Some err ->
          fst (NewRigid key lens) = None
          /\ (err = ErrEmptySecretKey \/ err = ErrInvalidSigLength))
    /\ (snd (NewRigid key lens) = None ->
          fst (NewRigid key lens) =
          Some (mkRigid key (hd DefaultSignatureLength lens) (ulid.Monotonic 0)))
    /\ (key <> [] ->
          NewRigid key [3] = (None, Some ErrInvalidSigLength)
          /\ NewRigid key [33] = (None, Some ErrInvalidSigLength)
          /\ NewRigid key [4] = (Some (mkRigid key 4 (ulid.Monotonic 0)), None)
          /\ NewRigid key [32] = (Some (mkRigid key 32 (ulid.Monotonic 0)), None)
          /\ NewRigid key [] = (Some (mkRigid key 8 (ulid.Monotonic 0)), None)).
Proof.
  intros key lens.
  destruct (NewRigid_cases key lens)
    as [[Hk E] | [(Hk & Hl & E) | (Hk & Hl & E)]]; rewrite E; cbn [fst snd].
  - split; [split; [auto | discriminate]|].
    split; [intros err H; injection H as <-; auto|].
    split; [discriminate|]. congruence.
  - split; [split; [auto | discriminate]|].
    split; [intros err H; injection H as <-; auto|].
    split; [discriminate|]. intros _. apply NewRigid_nonempty, Hk.
  - split; [split; [congruence | intros [H|H]; [congruence | destruct (Hl H)]]|].
    split; [intros err H; discriminate H|].
    split; [reflexivity|]. intros _. apply NewRigid_nonempty, Hk.
Qed.

Lemma C5_witness :
  NewRigid testSecretKey [3] = (None, Some ErrInvalidSigLength)
  /\ NewRigid testSecretKey [33] = (None, Some ErrInvalidSigLength)
  /\ NewRigid testSecretKey [4] = (Some r4, None)
  /\ NewRigid testSecretKey [32] =
     (Some (mkRigid testSecretKey 32 (ulid.Monotonic 0)), None)
  /\ NewRigid testSecretKey [] = (Some r8, None).
Proof.
  apply (proj2 (proj2 (proj2 (C5_construction_errors testSecretKey [])))).
  discriminate.
Defined.

(** C6. Signing with the empty metadata string gives the very signature of
    signing the id text alone; [Generate("")] and [Generate()] are one and the
    same call, and the identifier either returns has two segments and verifies
    with empty metadata. *)
Theorem C6_empty_metadata_is_no_metadata :
  forall (r : Rigid) (e : Env) (id_text : string),
    generateSignature r id_text "" = sign_id_alone r id_text
    /\ Generate r e [""] = Generate r e []
    /\ (forall s r',
          Generate r e [""] = (Done (s, None), r') ->
          List.length (strings.Split s "-") = 2%nat
          /\ Verify r' s =
             Done (mkVerifyResult true (nth 0 (strings.Split s "-") "") "", None)).
Proof.
  intros r e id_text. split; [reflexivity|]. split; [reflexivity|].
  intros s r' H.
  pose proof (Verify_Generate _ _ _ _ _ H) as (id & Hs & _ & -> & HV & _).
  split; [|exact HV].
  apply Generate_done in H as (id' & m' & sig & _ & _ & Hsig & ->).
  rewrite Split_assemble.
  - reflexivity.
  - apply String_lacks_hyphen.
  - exact (generateSignature_lacks_hyphen _ _ _ _ Hsig).
Qed.

Lemma C6_witness :
  List.length (strings.Split id_plain "-") = 2%nat
  /\ Verify r8_after id_plain =
     Done (mkVerifyResult true (nth 0 (strings.Split id_plain "-") "") "", None).
Proof.
  apply (proj2 (proj2 (C6_empty_metadata_is_no_metadata r8 env0 ""))).
  vm_compute. reflexivity.
Defined.

(** For a clock reading from 1970 on whose milliseconds fit 48 bits, the
    time of the millisecond count is the reading cut to the millisecond. *)
Lemma Time_Timestamp t :
  0 <= Unix t < 281474976710 -> 0 <= Nanosecond t < 1000000000 ->
  ulid.Timestamp t <= ulid.maxTime
  /\ ulid.Time (ulid.Timestamp t) =
     mkTime (Unix t) (Nanosecond t / 1000000 * 1000000).
Proof.
  intros HU HN. unfold ulid.Timestamp, ulid.Time, time.Millisecond, uint64.
  rewrite Z.quot_div_nonneg by lia.
  assert (Hq : 0 <= Nanosecond t / 1000000 < 1000)
    by (split; [apply Z.div_pos | apply Z.div_lt_upper_bound]; lia).
  set (q := Nanosecond t / 1000000) in *.
  rewrite (Z.mod_small (Unix t)) by lia.
  rewrite (Z.mod_small q) by lia.
  rewrite (Z.mod_small (Unix t * 1000 + q)) by lia.
  split; [unfold ulid.maxTime; lia|].
  replace ((Unix t * 1000 + q) / 1000) with (Unix t)
    by (apply Z.div_unique with q; lia).
  replace ((Unix t * 1000 + q) mod 1000) with q
    by (apply Z.mod_unique with (Unix t); lia).
  unfold time.Unix.
  destruct (Z.ltb_spec (q * 1000000) 0); [lia|].
  destruct (Z.leb_spec 1000000000 (q * 1000000)); [lia|]. reflexivity.
Qed.

(** C7. For every identifier that [Generate] returned, [ExtractULID] returns
    the value [New] made, whose 26 characters are the first segment, and
    [ExtractTimestamp] returns the time of the millisecond count read from
    the clock during the call, which is the count the value holds. *)
Theorem C7_extract_roundtrip :
  forall (r : Rigid) (e : Env) (md : list string) (s : string) (r' : Rigid),
    Generate r e md = (Done (s, None), r') ->
    exists id,
      fst (fst (ulid.New (ulid.Timestamp (now e)) (entropy r) (rnd e))) = id
      /\ ulid.String id = nth 0 (strings.Split s "-") ""
      /\ ExtractULID r' s = (id, None)
      /\ ulid.ULID_Time id = ulid.Timestamp (now e)
      /\ ExtractTimestamp r' s = (ulid.Time (ulid.Timestamp (now e)), None).
Proof.
  intros r e md s r' H.
  apply Generate_done in H as (id & m' & sig & HN & -> & Hsig & ->).
  pose proof (New_wf _ _ _ _ _ _ HN) as Hwf.
  pose proof (String_lacks_hyphen id) as Hu.
  pose proof (generateSignature_lacks_hyphen _ _ _ _ Hsig) as Hl.
  assert (HT : ulid.ULID_Time id = ulid.Timestamp (now e)).
  { destruct (New_ok _ _ _ _ _ HN) as (Hmax & x & ->).
    apply ULID_Time_be. split; [|exact Hmax].
    unfold ulid.Timestamp, uint64. apply Z.mod_pos_bound. lia. }
  assert (HE : ExtractULID (mkRigid (secretKey r) (signatureLength r) m')
                 (assemble (ulid.String id) sig (hd "" md)) = (id, None)).
  { unfold ExtractULID. rewrite (Split_assemble _ _ _ Hu Hl).
    cbn [List.length Nat.ltb Nat.leb nth]. now rewrite Parse_String. }
  exists id. rewrite HN. split; [reflexivity|].
  split. { rewrite (Split_assemble _ _ _ Hu Hl). reflexivity. }
  split; [exact HE|]. split; [exact HT|].
  unfold ExtractTimestamp. now rewrite HE, HT.
Qed.

Lemma C7_witness :
  exists id,
    fst (fst (ulid.New (ulid.Timestamp (now env0)) (entropy r8) (rnd env0))) = id
    /\ ulid.String id = nth 0 (strings.Split id_meta "-") ""
    /\ ExtractULID r8_after id_meta = (id, None)
    /\ ulid.ULID_Time id = ulid.Timestamp (now env0)
    /\ ExtractTimestamp r8_after id_meta =
       (ulid.Time (ulid.Timestamp (now env0)), None).
Proof.
  apply (C7_extract_roundtrip r8 env0 ["a-b--c"]).
  vm_compute. reflexivity.
Defined.

(** The time read back is the clock reading cut to the millisecond. *)
Example extracted_time :
  ExtractTimestamp r8_after id_meta = (mkTime 1469918176 385000000, None).
Proof. vm_compute. reflexivity. Qed.

(** C8. When [Verify] returns, its error is [nil] if and only if the result
    has [Valid = true]; with an error, which is one of the format, malformed
    id and integrity errors, the result is the zero value.  On an instance
    with a signature length in range [Verify] always returns. *)
Theorem C8_error_iff_not_valid :
  forall (r : Rigid) (s : string),
    (0 <= signatureLength r <= 32 ->
     exists v err, Verify r s = Done (v, err))
    /\ (forall v err,
          Verify r s = Done (v, err) ->
          (err = None <-> Valid v = true)
          /\ (err <> None -> v = zeroVerifyResult)
          /\ (forall x, err = Some x ->
                x = ErrInvalidFormat \/ x = ErrInvalidULID
                \/ x = ErrIntegrityFailure)).
Proof.
  intros r s. unfold Verify.
  pose proof (Verify_traced_unfold r s) as HV. cbv zeta in HV. rewrite HV.
  clear HV. split.
  - intros Hn. rewrite generateSignature_spec by exact Hn.
    repeat match goal with
           | |- context [if ?b then _ else _] => destruct b
           | |- context [match ?o with Some _ => _ | None => _ end] => destruct o
           end; cbn [fst]; eauto.
  - intros v err.
    repeat match goal with
           | |- context [if ?b then _ else _] => destruct b
           | |- context [match ?o with Some _ => _ | None => _ end] => destruct o
           | |- context [match ?o with Done _ => _ | Panic => _ end] => destruct o
           end; cbn [fst]; intros H; try discriminate H;
      apply Done_inj, pair_inj in H as [<- <-];
      cbn [Valid zeroVerifyResult];
      (split; [split; intros; congruence|]);
      (split; [intros; congruence|]);
      intros x Hx; first [discriminate Hx | injection Hx as <-; auto].
Qed.

Lemma C8_witness :
  (exists v err, Verify r8 id_short = Done (v, err))
  /\ ((Some ErrIntegrityFailure = None <-> Valid zeroVerifyResult = true)
      /\ (Some ErrIntegrityFailure <> None -> zeroVerifyResult = zeroVerifyResult)
      /\ (forall x, Some ErrIntegrityFailure = Some x ->
            x = ErrInvalidFormat \/ x = ErrInvalidULID
            \/ x = ErrIntegrityFailure)).
Proof.
  split.
  - apply (proj1 (C8_error_iff_not_valid r8 id_short)). simpl. lia.
  - apply (proj2 (C8_error_iff_not_valid r8 id_short)).
    vm_compute. reflexivity.
Defined.

(** C9. On an input with fewer than two hyphen-delimited segments, that is
    one without a hyphen, [ExtractULID] and [ExtractTimestamp] fail with the
    format error, also when the whole input is a valid 26-character id. *)
Theorem C9_extract_needs_two_segments :
  forall (r : Rigid) (s : string),
    (List.length (strings.Split s "-") < 2)%nat ->
    lacks "-" s
    /\ ExtractULID r s = (ulid.zero, Some ErrInvalidFormat)
    /\ ExtractTimestamp r s = (time.zero, Some ErrInvalidFormat).
Proof.
  intros r s H. split; [exact (Split_single _ _ H)|].
  assert (HE : ExtractULID r s = (ulid.zero, Some ErrInvalidFormat)).
  { unfold ExtractULID. apply Nat.ltb_lt in H. now rewrite H. }
  split; [exact HE|]. unfold ExtractTimestamp. now rewrite HE.
Qed.

Lemma C9_witness :
  snd (ulid.Parse "01ARZ3NDEKTSV4RRFFQ69G5FAV") = None
  /\ lacks "-" "01ARZ3NDEKTSV4RRFFQ69G5FAV"
  /\ ExtractULID r8 "01ARZ3NDEKTSV4RRFFQ69G5FAV" =
     (ulid.zero, Some ErrInvalidFormat)
  /\ ExtractTimestamp r8 "01ARZ3NDEKTSV4RRFFQ69G5FAV" =
     (time.zero, Some ErrInvalidFormat).
Proof.
  split; [reflexivity|].
  apply (C9_extract_needs_two_segments r8 "01ARZ3NDEKTSV4RRFFQ69G5FAV").
  vm_compute. lia.
Defined.

End Claims.

(** * Further properties *)

Section Comparison.

Lemma byte_of_ascii_byte c : is_byte (byte_of_ascii c).
Proof.
  unfold is_byte, byte_of_ascii. pose proof (N_ascii_bounded c). lia.
Qed.

Lemma byte_of_ascii_inj a b : byte_of_ascii a = byte_of_ascii b -> a = b.
Proof.
  unfold byte_of_ascii. intros H. apply N2Z.inj in H.
  rewrite <- (ascii_N_embedding a), <- (ascii_N_embedding b). now rewrite H.
Qed.

Lemma bytes_of_string_bytes s : Forall is_byte (bytes_of_string s).
Proof.
  induction s as [|c s IH]; simpl; constructor;
    [apply byte_of_ascii_byte | exact IH].
Qed.

Lemma bytes_of_string_inj a b : bytes_of_string a = bytes_of_string b -> a = b.
Proof.
  revert b. induction a as [|x a IH]; intros [|y b]; simpl; try discriminate.
  - reflexivity.
  - intros H. injection H as Hxy Hab.
    now rewrite (byte_of_ascii_inj _ _ Hxy), (IH _ Hab).
Qed.

Lemma lor_lxor_byte :
  forall x v a : Z, 0 <= x < 1 -> 0 <= v < 256 -> 0 <= a < 256 ->
  Z.b2z ((0 <=? Z.lor v a) && (Z.lor v a <? 256)
         && (0 <=? Z.lxor v a) && (Z.lxor v a <? 256)) = 1.
Proof.
  intros x y z Hx Hy Hz; apply Z.eqb_eq;
  revert z Hz; apply (forall_zrange 256%nat);
  revert y Hy; apply (forall_zrange 256%nat);
  revert x Hx; apply (forall_zrange 1%nat);
  vm_compute; reflexivity.
Qed.

Lemma lor_byte v a : is_byte v -> is_byte a -> is_byte (Z.lor v a).
Proof.
  intros Hv Ha. pose proof (lor_lxor_byte 0 v a ltac:(lia) Hv Ha) as H.
  unfold is_byte.
  destruct (Z.leb_spec 0 (Z.lor v a)); [|discriminate H].
  destruct (Z.ltb_spec (Z.lor v a) 256); [lia | discriminate H].
Qed.

Lemma lxor_byte v a : is_byte v -> is_byte a -> is_byte (Z.lxor v a).
Proof.
  intros Hv Ha. pose proof (lor_lxor_byte 0 v a ltac:(lia) Hv Ha) as H.
  unfold is_byte.
  destruct (Z.leb_spec 0 (Z.lor v a)); [|discriminate H].
  destruct (Z.ltb_spec (Z.lor v a) 256); [|discriminate H].
  destruct (Z.leb_spec 0 (Z.lxor v a)); [|discriminate H].
  destruct (Z.ltb_spec (Z.lxor v a) 256); [lia | discriminate H].
Qed.

Lemma accumulate_byte x : forall y v,
  is_byte v -> Forall is_byte x -> Forall is_byte y ->
  is_byte (subtle.accumulate v x y).
Proof.
  induction x as [|a x IH]; intros [|b y] v Hv Hx Hy; simpl; try exact Hv.
  inversion_clear Hx. inversion_clear Hy.
  apply IH; auto using lor_byte, lxor_byte.
Qed.

Lemma accumulate_zero x : forall y v,
  List.length x = List.length y ->
  (subtle.accumulate v x y = 0 <-> v = 0 /\ x = y).
Proof.
  induction x as [|a x IH]; intros [|b y] v Hlen; simpl in *;
    try discriminate.
  - intuition.
  - rewrite IH by lia. rewrite Z.lor_eq_0_iff. split.
    + intros [[Hv Hab] ->]. apply Z.lxor_eq in Hab. now subst.
    + intros [Hv H]. injection H as -> ->. now rewrite Z.lxor_nilpotent.
Qed.

Lemma ConstantTimeByteEq_zero :
  forall x y v : Z, 0 <= x < 1 -> 0 <= y < 1 -> 0 <= v < 256 ->
  subtle.ConstantTimeByteEq v 0 = (if v =? 0 then 1 else 0).
Proof.
  intros x y z Hx Hy Hz; apply Z.eqb_eq;
  revert z Hz; apply (forall_zrange 256%nat);
  revert y Hy; apply (forall_zrange 1%nat);
  revert x Hx; apply (forall_zrange 1%nat);
  vm_compute; reflexivity.
Qed.

(** On byte slices the comparison answers 1 when the two are equal and 0
    otherwise. *)
Lemma ConstantTimeCompare_spec x y :
  Forall is_byte x -> Forall is_byte y ->
  (x = y -> subtle.ConstantTimeCompare x y = 1)
  /\ (x <> y -> subtle.ConstantTimeCompare x y = 0).
Proof.
  intros Hx Hy. split.
  - intros ->. apply ConstantTimeCompare_same.
  - intros Hne. unfold subtle.ConstantTimeCompare.
    destruct (Nat.eqb_spec (List.length x) (List.length y)) as [Hlen|Hlen];
      [|reflexivity].
    cbn [negb].
    assert (Hb : is_byte (subtle.accumulate 0 x y))
      by (apply accumulate_byte; auto; unfold is_byte; lia).
    rewrite (ConstantTimeByteEq_zero 0 0) by (try exact Hb; lia).
    destruct (Z.eqb_spec (subtle.accumulate 0 x y) 0) as [H0|H0];
      [|reflexivity].
    apply accumulate_zero in H0 as [_ H0]; [contradiction | exact Hlen].
Qed.

End Comparison.

Section Verification.

Open Scope string_scope.

Lemma eqb_length_false a b :
  String.length a <> String.length b -> String.eqb a b = false.
Proof. intros H. apply String.eqb_neq. intros ->. now apply H. Qed.

(** X1. On an instance whose signature length lies in [0, 32], [Verify]
    returns what the three checks decide with the signature compared as text:
    format error without a hyphen, malformed-id error when the first segment
    does not parse, success when the second segment is the signature of the
    first segment and the rejoined rest, integrity error otherwise. *)
Theorem Verify_is_decision :
  forall (r : Rigid) (s : string),
    0 <= signatureLength r <= 32 ->
    Verify r s = Done (Verify_decision r s).
Proof.
  intros r s Hn. unfold Verify, Verify_decision.
  pose proof (Verify_traced_unfold r s) as HV. cbv zeta in HV. rewrite HV.
  clear HV.
  destruct (List.length (strings.Split s "-") <? 2)%nat; [reflexivity|].
  destruct (snd (ulid.Parse _)); [reflexivity|].
  rewrite generateSignature_spec by exact Hn.
  set (sg := nth 1 (strings.Split s "-") "").
  set (ex := spec_signature _ _ _ _).
  destruct (Nat.eqb_spec (String.length sg) (String.length ex)) as [Hl|Hl];
    cbn [negb fst].
  - destruct (ConstantTimeCompare_spec (bytes_of_string sg) (bytes_of_string ex)
                (bytes_of_string_bytes _) (bytes_of_string_bytes _)) as [Heq Hne].
    destruct (String.eqb_spec sg ex) as [E|E].
    + rewrite Heq by now rewrite E. reflexivity.
    + rewrite Hne; [reflexivity|].
      intros H. apply E, bytes_of_string_inj, H.
  - now rewrite eqb_length_false.
Qed.

Lemma Verify_is_decision_witness :
  Verify r8 id_meta = Done (Verify_decision r8 id_meta).
Proof. apply Verify_is_decision. simpl. lia. Defined.

(** The decision on an assembled identifier. *)
Lemma decision_assembled r u sig m :
  lacks "-" u -> lacks "-" sig ->
  Verify_decision r (assemble u sig m) =
  match snd (ulid.Parse u) with
  | Some _ => (zeroVerifyResult, Some ErrInvalidULID)
  | None =>
      if String.eqb sig (spec_signature (secretKey r) (signatureLength r) u m)
      then (mkVerifyResult true u m, None)
      else (zeroVerifyResult, Some ErrIntegrityFailure)
  end.
Proof.
  intros Hu Hl. unfold Verify_decision. rewrite (Split_assemble u sig m Hu Hl).
  assert (Hmeta :
    (if (2 <? List.length
                (u :: sig :: (if String.eqb m "" then [] else strings.Split m "-")))%nat
     then strings.Join
            (skipn 2 (u :: sig ::
                        (if String.eqb m "" then [] else strings.Split m "-"))) "-"
     else "") = m).
  { destruct (String.eqb_spec m "") as [->|Hm]; [reflexivity|].
    pose proof (Join_Split m "-") as HJ.
    pose proof (Split_nonempty m "-") as Hne.
    destruct (strings.Split m "-") as [|p ps]; [congruence|]. exact HJ. }
  rewrite Hmeta. reflexivity.
Qed.

(** A call of [Generate] that returned had a signature length in range. *)
Lemma Generate_done_range r e md s r' :
  Generate r e md = (Done (s, None), r') -> 0 <= signatureLength r <= 32.
Proof.
  intros H. apply Generate_done in H as (id & m' & sig & _ & _ & Hsig & _).
  destruct (Z.le_gt_cases 0 (signatureLength r));
    destruct (Z.le_gt_cases (signatureLength r) 32); try lia;
    assert (HP : generateSignature r (ulid.String id) (hd "" md) = Panic)
      by (apply generateSignature_panic; lia);
    rewrite HP in Hsig; discriminate Hsig.
Qed.

(** X2. Tamper detection on the signature segment: in an identifier that
    [Generate] returned, putting any other hyphen-free text in the place of
    the signature makes [Verify] fail with the integrity error and the zero
    result. *)
Theorem tampered_signature_rejected :
  forall (r : Rigid) (e : Env) (md : list string) (s : string) (r' : Rigid)
         (sig' : string),
    Generate r e md = (Done (s, None), r') ->
    lacks "-" sig' ->
    sig' <> nth 1 (strings.Split s "-") "" ->
    Verify r' (assemble (nth 0 (strings.Split s "-") "") sig' (hd "" md)) =
    Done (zeroVerifyResult, Some ErrIntegrityFailure).
Proof.
  intros r e md s r' sig' H Hl' Hne.
  pose proof (Generate_done_range _ _ _ _ _ H) as Hn.
  apply Generate_done in H as (id & m' & sig & HN & -> & Hsig & ->).
  pose proof (String_lacks_hyphen id) as Hu.
  pose proof (generateSignature_lacks_hyphen _ _ _ _ Hsig) as Hl.
  rewrite (Split_assemble _ _ _ Hu Hl) in *. cbn [nth] in *.
  rewrite Verify_is_decision by exact Hn.
  rewrite (decision_assembled _ _ _ _ Hu Hl').
  rewrite Parse_String by exact (New_wf _ _ _ _ _ _ HN). cbn [snd].
  rewrite generateSignature_spec in Hsig by exact Hn.
  apply Done_inj in Hsig. cbn [secretKey signatureLength]. rewrite Hsig.
  apply String.eqb_neq in Hne. now rewrite Hne.
Qed.

Lemma tampered_signature_rejected_witness :
  Verify r8_after id_forged =
  Done (zeroVerifyResult, Some ErrIntegrityFailure).
Proof.
  apply (tampered_signature_rejected r8 env0 ["a-b--c"] id_meta r8_after
           "AAAAAAAAAAAAA").
  - vm_compute. reflexivity.
  - vm_compute. repeat split; discriminate.
  - vm_compute. discriminate.
Defined.

(** X3. Any instance holding the same key and signature length accepts an
    identifier that another instance generated, whatever the entropy state
    of either. *)
Theorem Verify_on_another_instance :
  forall (r r2 : Rigid) (e : Env) (md : list string) (s : string) (r' : Rigid),
    Generate r e md = (Done (s, None), r') ->
    secretKey r2 = secretKey r ->
    signatureLength r2 = signatureLength r ->
    Verify r2 s =
    Done (mkVerifyResult true (nth 0 (strings.Split s "-") "") (hd "" md), None).
Proof.
  intros r r2 e md s r' H Hk Hn.
  apply Generate_done in H as (id & m' & sig & HN & -> & Hsig & ->).
  pose proof (String_lacks_hyphen id) as Hu.
  pose proof (generateSignature_lacks_hyphen _ _ _ _ Hsig) as Hl.
  rewrite (Split_assemble _ _ _ Hu Hl). cbn [nth].
  unfold Verify. rewrite (Verify_assembled r2 _ sig); [reflexivity|exact Hu| |].
  - now rewrite Parse_String by exact (New_wf _ _ _ _ _ _ HN).
  - rewrite <- Hsig. rewrite !generateSignature_unfold. now rewrite Hk, Hn.
Qed.

Lemma Verify_on_another_instance_witness :
  Verify r8_other id_meta =
  Done (mkVerifyResult true (nth 0 (strings.Split id_meta "-") "")
          (hd "" ["a-b--c"]), None).
Proof.
  apply (Verify_on_another_instance r8 r8_other env0 ["a-b--c"] id_meta r8_after).
  - vm_compute. reflexivity.
  - reflexivity.
  - reflexivity.
Defined.

(** X4. Of several metadata arguments only the first is bound: the call
    returns what the call with that one argument returns, and [Verify] gives
    the first argument back as the metadata. *)
Theorem Generate_binds_first_metadata :
  forall (r : Rigid) (e : Env) (m : string) (more : list string)
         (s : string) (r' : Rigid),
    Generate r e (m :: more) = (Done (s, None), r') ->
    Generate r e [m] = (Done (s, None), r')
    /\ Verify r' s =
       Done (mkVerifyResult true (nth 0 (strings.Split s "-") "") m, None).
Proof.
  intros r e m more s r' H.
  assert (H1 : Generate r e [m] = (Done (s, None), r')) by exact H.
  split; [exact H1|].
  apply Verify_Generate in H1 as (id & _ & _ & -> & HV & _). exact HV.
Qed.

Lemma Generate_binds_first_metadata_witness :
  Generate r8 env0 ["a-b--c"] = (Done (id_meta, None), r8_after)
  /\ Verify r8_after id_meta =
     Done (mkVerifyResult true (nth 0 (strings.Split id_meta "-") "") "a-b--c",
           None).
Proof.
  apply (Generate_binds_first_metadata r8 env0 "a-b--c" ["second"; "third"]).
  vm_compute. reflexivity.
Defined.

(** X5. An identifier generated without metadata is still accepted with one
    more hyphen at its end: the empty third segment is read as empty
    metadata, which signs like none. *)
Theorem trailing_hyphen_accepted :
  forall (r : Rigid) (e : Env) (md : list string) (s : string) (r' : Rigid),
    Generate r e md = (Done (s, None), r') ->
    hd "" md = "" ->
    Verify r' (s ++ "-") =
    Done (mkVerifyResult true (nth 0 (strings.Split s "-") "") "", None).
Proof.
  intros r e md s r' H Hmd.
  pose proof (Generate_done_range _ _ _ _ _ H) as Hn.
  apply Generate_done in H as (id & m' & sig & HN & -> & Hsig & ->).
  pose proof (String_lacks_hyphen id) as Hu.
  pose proof (generateSignature_lacks_hyphen _ _ _ _ Hsig) as Hl.
  rewrite (Split_assemble _ _ _ Hu Hl). cbn [nth].
  rewrite Hmd in *. unfold assemble. cbn [String.eqb].
  rewrite Verify_is_decision by exact Hn.
  unfold Verify_decision. rewrite append_assoc.
  change (ulid.String id ++ ("-" ++ sig) ++ "-")
    with (ulid.String id ++ String "-" (sig ++ String "-" "")).
  rewrite !Split_app by assumption.
  cbn [strings.Split List.length Nat.ltb Nat.leb nth skipn strings.Join].
  rewrite Parse_String by exact (New_wf _ _ _ _ _ _ HN). cbn [snd].
  rewrite generateSignature_spec in Hsig by exact Hn.
  apply Done_inj in Hsig. cbn [secretKey signatureLength].
  rewrite Hsig, String.eqb_refl. reflexivity.
Qed.

Lemma trailing_hyphen_accepted_witness :
  Verify r8_after id_trailing =
  Done (mkVerifyResult true (nth 0 (strings.Split id_plain "-") "") "", None).
Proof.
  apply (trailing_hyphen_accepted r8 env0 [] id_plain r8_after).
  - vm_compute. reflexivity.
  - reflexivity.
Defined.

End Verification.

Section Extraction.

Open Scope string_scope.

Lemma Split_two s :
  (List.length (strings.Split s "-") <? 2)%nat = true <-> lacks "-" s.
Proof.
  split.
  - intros H. apply Nat.ltb_lt in H. exact (Split_single _ _ H).
  - intros H. now rewrite (Split_lacks _ _ H).
Qed.

(** X6. Whenever [Verify] accepts an input, [ExtractULID] and
    [ExtractTimestamp] succeed on it, on any instance: they return the value
    that the [ULID] text of the result parses to, and the time it holds. *)
Theorem Verify_then_extract :
  forall (r r2 : Rigid) (s : string) (v : VerifyResult),
    Verify r s = Done (v, None) ->
    exists id,
      ulid.Parse (ULID v) = (id, None)
      /\ ULID v = nth 0 (strings.Split s "-") ""
      /\ ExtractULID r2 s = (id, None)
      /\ ExtractTimestamp r2 s = (ulid.Time (ulid.ULID_Time id), None).
Proof.
  intros r r2 s v. unfold Verify.
  pose proof (Verify_traced_unfold r s) as HV. cbv zeta in HV. rewrite HV.
  clear HV. unfold ExtractTimestamp, ExtractULID.
  destruct (List.length (strings.Split s "-") <? 2)%nat.
  { intros H. apply Done_inj, pair_inj in H as [_ H]. discriminate H. }
  destruct (ulid.Parse (nth 0 (strings.Split s "-") "")) as [id [err|]] eqn:EP;
    cbn [snd fst].
  { intros H. apply Done_inj, pair_inj in H as [_ H]. discriminate H. }
  destruct (generateSignature _ _ _) as [expected|]; [|discriminate].
  destruct (negb (String.length _ =? String.length expected)%nat); cbn [fst].
  { intros H. apply Done_inj, pair_inj in H as [_ H]. discriminate H. }
  destruct (negb (subtle.ConstantTimeCompare _ _ =? 1)%Z).
  { intros H. apply Done_inj, pair_inj in H as [_ H]. discriminate H. }
  intros H. apply Done_inj, pair_inj in H as [<- _]. cbn [ULID].
  exists id. rewrite EP. repeat split.
Qed.

Lemma Verify_then_extract_witness :
  exists id,
    ulid.Parse "01ARYZ6S4138J9P7RGM1P9DBZJ" = (id, None)
    /\ "01ARYZ6S4138J9P7RGM1P9DBZJ" = nth 0 (strings.Split id_meta "-") ""
    /\ ExtractULID r4 id_meta = (id, None)
    /\ ExtractTimestamp r4 id_meta = (ulid.Time (ulid.ULID_Time id), None).
Proof.
  apply (Verify_then_extract r8 r4 id_meta
           (mkVerifyResult true "01ARYZ6S4138J9P7RGM1P9DBZJ" "a-b--c")).
  vm_compute. reflexivity.
Defined.

(** X7. Extraction does not look at the signature: for every sixteen-byte
    value, its 26 characters followed by a hyphen and any text at all give the
    value back from [ExtractULID] and its time from [ExtractTimestamp]. *)
Theorem extraction_ignores_signature :
  forall (r : Rigid) (id : ulid.ULID) (rest : string),
    ulid.wf id ->
    ExtractULID r (ulid.String id ++ "-" ++ rest) = (id, None)
    /\ ExtractTimestamp r (ulid.String id ++ "-" ++ rest) =
       (ulid.Time (ulid.ULID_Time id), None).
Proof.
  intros r id rest Hwf.
  assert (HE : ExtractULID r (ulid.String id ++ "-" ++ rest) = (id, None)).
  { unfold ExtractULID.
    change (ulid.String id ++ "-" ++ rest)
      with (ulid.String id ++ String "-" rest).
    rewrite Split_app by apply String_lacks_hyphen.
    pose proof (Split_nonempty rest "-") as Hne.
    destruct (strings.Split rest "-") as [|p ps]; [congruence|].
    cbn [List.length Nat.ltb Nat.leb nth]. now rewrite Parse_String. }
  split; [exact HE|]. unfold ExtractTimestamp. now rewrite HE.
Qed.

Lemma extraction_ignores_signature_witness :
  ExtractULID r8 (ulid.String ulid_example ++ "-" ++ "not-a-signature") =
  (ulid_example, None)
  /\ ExtractTimestamp r8 (ulid.String ulid_example ++ "-" ++ "not-a-signature") =
     (ulid.Time (ulid.ULID_Time ulid_example), None).
Proof.
  apply (extraction_ignores_signature r8 ulid_example "not-a-signature").
  split; [reflexivity|]. unfold ulid_example.
  repeat constructor; unfold is_byte; lia.
Defined.

(** X8. The errors of extraction: [ExtractULID] fails with the format error
    exactly on inputs without a hyphen, and otherwise only with the
    malformed-id error; with an error it returns the zero value, and
    [ExtractTimestamp] then returns the zero time and the same error.
    [Verify] returns the format error, and the malformed-id error, on exactly
    the inputs on which [ExtractULID] does. *)
Theorem extraction_errors :
  forall (r r2 : Rigid) (s : string),
    (snd (ExtractULID r s) = Some ErrInvalidFormat <-> lacks "-" s)
    /\ (forall err,
          snd (ExtractULID r s) = Some err ->
          (err = ErrInvalidFormat \/ err = ErrInvalidULID)
          /\ fst (ExtractULID r s) = ulid.zero
          /\ ExtractTimestamp r s = (time.zero, Some err))
    /\ (snd (ExtractULID r s) = Some ErrInvalidFormat <->
        Verify r2 s = Done (zeroVerifyResult, Some ErrInvalidFormat))
    /\ (snd (ExtractULID r s) = Some ErrInvalidULID <->
        Verify r2 s = Done (zeroVerifyResult, Some ErrInvalidULID)).
Proof.
  intros r r2 s. unfold Verify.
  pose proof (Verify_traced_unfold r2 s) as HV. cbv zeta in HV. rewrite HV.
  clear HV. unfold ExtractTimestamp, ExtractULID.
  pose proof (Split_two s) as H2.
  destruct (List.length (strings.Split s "-") <? 2)%nat; cbn [fst snd].
  { split; [tauto|]. split.
    - intros err H. injection H as <-. auto.
    - split; split; intros H;
        first [ reflexivity | discriminate H
              | apply Done_inj, pair_inj in H as [_ H]; discriminate H ]. }
  destruct (ulid.Parse (nth 0 (strings.Split s "-") "")) as [id [e0|]];
    cbn [fst snd].
  { split.
    { split; [discriminate|]. intros H. apply H2 in H. discriminate H. }
    split.
    { intros err H. injection H as <-. auto. }
    split; split; intros H;
      first [ reflexivity | discriminate H
            | apply Done_inj, pair_inj in H as [_ H]; discriminate H ]. }
  split.
  { split; [discriminate|]. intros H. apply H2 in H. discriminate H. }
  split; [intros err H; discriminate H|].
  destruct (generateSignature _ _ _) as [expected|].
  - destruct (negb (String.length _ =? String.length expected)%nat);
      cbn [fst];
      [|destruct (negb (subtle.ConstantTimeCompare _ _ =? 1)%Z)];
      (split; split; intros H;
       first [ discriminate H
             | apply Done_inj, pair_inj in H as [_ H]; discriminate H ]).
  - cbn [fst]. split; split; intros H; discriminate H.
Qed.

Lemma extraction_errors_witness :
  snd (ExtractULID r8 bare_id) = Some ErrInvalidFormat.
Proof.
  apply (proj2 (proj1 (extraction_errors r8 r8 bare_id))).
  vm_compute. repeat split; discriminate.
Defined.

End Extraction.

Section Format.

Open Scope string_scope.

Lemma length_of_list_ascii l :
  String.length (string_of_list_ascii l) = List.length l.
Proof. induction l as [|c l IH]; simpl; [reflexivity | now rewrite IH]. Qed.

Lemma append_length a b :
  String.length (a ++ b) = (String.length a + String.length b)%nat.
Proof. induction a as [|x a IH]; simpl; [reflexivity | now rewrite IH]. Qed.

Lemma EncodeToString_length_upto n :
  forall src, (List.length src <= n)%nat ->
    String.length (base32.EncodeToString src) =
    ((8 * List.length src + 4) / 5)%nat.
Proof.
  induction n as [|n IH]; intros src Hlen.
  - destruct src; simpl in Hlen; [reflexivity | lia].
  - destruct src as [|s0 [|s1 [|s2 [|s3 [|s4 rest]]]]]; try reflexivity.
    rewrite EncodeToString_quantum, append_length, IH
      by (simpl in Hlen; lia).
    change (String.length (base32.chars 8 _)) with 8%nat.
    cbn [List.length].
    replace (8 * S (S (S (S (S (List.length rest))))) + 4)%nat
      with ((8 * List.length rest + 4) + 8 * 5)%nat by lia.
    rewrite Nat.div_add by discriminate. lia.
Qed.

(** The text of [n] bytes has ceil(8n/5) characters. *)
Lemma EncodeToString_length src :
  String.length (base32.EncodeToString src) =
  ((8 * List.length src + 4) / 5)%nat.
Proof. apply (EncodeToString_length_upto (List.length src)). lia. Qed.

(** X9. The signature text: with a signature length [N] in [0, 32] the
    call returns a text over the alphabet A-Z, 2-7 of exactly
    (8N + 4) / 5 characters, that is 8N/5 rounded up; outside that range the
    slice expression panics. *)
Theorem generateSignature_length :
  forall (r : Rigid) (ulidStr metadata : string),
    (0 <= signatureLength r <= 32 ->
     exists sig,
       generateSignature r ulidStr metadata = Done sig
       /\ all_in alphabet sig
       /\ String.length sig =
          ((8 * Z.to_nat (signatureLength r) + 4) / 5)%nat)
    /\ (~ 0 <= signatureLength r <= 32 ->
        generateSignature r ulidStr metadata = Panic).
Proof.
  intros r u m. split.
  - intros Hn. exists (spec_signature (secretKey r) (signatureLength r) u m).
    split; [now apply generateSignature_spec|].
    split; [apply EncodeToString_alphabet|].
    unfold spec_signature. rewrite EncodeToString_length, length_firstn.
    rewrite HMAC_SHA256_length.
    replace (Nat.min (Z.to_nat (signatureLength r)) 32)
      with (Z.to_nat (signatureLength r)) by lia.
    reflexivity.
  - apply generateSignature_panic.
Qed.

Lemma generateSignature_length_witness :
  (exists sig,
     generateSignature r8 "01ARYZ6S4138J9P7RGM1P9DBZJ" "" = Done sig
     /\ all_in alphabet sig
     /\ String.length sig = ((8 * Z.to_nat (signatureLength r8) + 4) / 5)%nat)
  /\ generateSignature (mkRigid testSecretKey 33 (ulid.Monotonic 0))
       "01ARYZ6S4138J9P7RGM1P9DBZJ" "" = Panic.
Proof.
  split.
  - apply (proj1 (generateSignature_length r8 "01ARYZ6S4138J9P7RGM1P9DBZJ" "")).
    simpl. lia.
  - apply (proj2 (generateSignature_length
                    (mkRigid testSecretKey 33 (ulid.Monotonic 0))
                    "01ARYZ6S4138J9P7RGM1P9DBZJ" "")).
    simpl. lia.
Defined.

Lemma String_crockford id : all_in crockford (ulid.String id).
Proof.
  unfold ulid.String. induction (ulid.quintets id) as [|q l IH]; simpl.
  - exact I.
  - split; [apply encode_Encoding | exact IH].
Qed.

(** X10. The shape of a generated identifier: 26 characters of the id
    alphabet, a hyphen, the signature text of (8N + 4) / 5 characters of the
    base32 alphabet and, only when the metadata is not empty, a hyphen and the
    metadata as given.  Neither of the first two segments has a hyphen. *)
Theorem Generate_shape :
  forall (r : Rigid) (e : Env) (md : list string) (s : string) (r' : Rigid),
    Generate r e md = (Done (s, None), r') ->
    exists u sig,
      s = (if String.eqb (hd "" md) "" then u ++ "-" ++ sig
           else u ++ "-" ++ sig ++ "-" ++ hd "" md)
      /\ String.length u = 26%nat /\ all_in crockford u
      /\ String.length sig = ((8 * Z.to_nat (signatureLength r) + 4) / 5)%nat
      /\ all_in alphabet sig
      /\ lacks "-" u /\ lacks "-" sig.
Proof.
  intros r e md s r' H.
  pose proof (Generate_done_range _ _ _ _ _ H) as Hn.
  apply Generate_done in H as (id & m' & sig & HN & -> & Hsig & ->).
  exists (ulid.String id), sig.
  destruct (proj1 (generateSignature_length r (ulid.String id) (hd "" md)) Hn)
    as (sig0 & E & Ha & Hlen).
  rewrite E in Hsig. apply Done_inj in Hsig. subst sig0.
  split.
  { unfold assemble. destruct (String.eqb (hd "" md) ""); [reflexivity|].
    now rewrite append_assoc. }
  split; [apply String_length|]. split; [apply String_crockford|].
  split; [exact Hlen|]. split; [exact Ha|].
  split; [apply String_lacks_hyphen|].
  apply (all_in_lacks alphabet); [exact hyphen_not_in_alphabet | exact Ha].
Qed.

Lemma Generate_shape_witness :
  exists u sig,
    id_meta = (if String.eqb (hd "" ["a-b--c"]) "" then u ++ "-" ++ sig
               else u ++ "-" ++ sig ++ "-" ++ hd "" ["a-b--c"])
    /\ String.length u = 26%nat /\ all_in crockford u
    /\ String.length sig = ((8 * Z.to_nat (signatureLength r8) + 4) / 5)%nat
    /\ all_in alphabet sig
    /\ lacks "-" u /\ lacks "-" sig.
Proof.
  apply (Generate_shape r8 env0 ["a-b--c"] id_meta r8_after).
  vm_compute. reflexivity.
Defined.

End Format.

Section Generation.

Open Scope string_scope.

Lemma Rigid_eta r : mkRigid (secretKey r) (signatureLength r) (entropy r) = r.
Proof. now destruct r. Qed.

(** X11. How [Generate] ends on an instance with a signature length in
    range.  A clock past the 48 bits of milliseconds gives the empty string
    and the library's time error, and leaves the instance as it was.  In a
    millisecond other than that of the last read, or while the entropy kept is
    zero, the call succeeds and the instance remembers the millisecond.  With
    any error the string is empty, and the error is the time error or the
    overflow of the monotonic entropy. *)
Theorem Generate_outcomes :
  forall (r : Rigid) (e : Env) (md : list string),
    0 <= signatureLength r <= 32 ->
    let t := ulid.Timestamp (now e) in
    (ulid.maxTime < t ->
     Generate r e md = (Done ("", Some ulid_ErrBigTime), r))
    /\ (t <= ulid.maxTime ->
        ulid.IsZero (ulid.entropy (entropy r)) = true \/ ulid.ms (entropy r) <> t ->
        exists s r',
          Generate r e md = (Done (s, None), r')
          /\ ulid.ms (entropy r') = t)
    /\ (forall s err r',
          Generate r e md = (Done (s, Some err), r') ->
          s = ""
          /\ (err = ulid_ErrBigTime \/ err = ulid_ErrMonotonicOverflow)).
Proof.
  intros r e md Hn t. split; [|split].
  - intros Hbig. unfold Generate, ulid.New. fold t.
    apply Z.ltb_lt in Hbig. rewrite Hbig. now rewrite Rigid_eta.
  - intros Hok Hfresh. unfold Generate, ulid.New, ulid.MonotonicRead. fold t.
    apply Z.ltb_ge in Hok. rewrite Hok.
    assert (Hc : negb (ulid.IsZero (ulid.entropy (entropy r)))
                 && (ulid.ms (entropy r) =? t)%Z = false).
    { destruct Hfresh as [Hz|Hms].
      - now rewrite Hz.
      - apply Z.eqb_neq in Hms. rewrite Hms. apply andb_false_r. }
    rewrite Hc. rewrite generateSignature_spec by exact Hn.
    eexists. eexists. split; reflexivity.
  - intros s err r'. unfold Generate, ulid.New, ulid.MonotonicRead. fold t.
    destruct (ulid.maxTime <? t)%Z.
    { intros H. apply pair_inj in H as [H _]. apply Done_inj in H.
      apply pair_inj in H as [<- H]. injection H as <-. auto. }
    destruct (negb (ulid.IsZero (ulid.entropy (entropy r)))
              && (ulid.ms (entropy r) =? t)%Z).
    + destruct (ulid.Add _ _) as [u overflow]. destruct overflow.
      * intros H. apply pair_inj in H as [H _]. apply Done_inj in H.
        apply pair_inj in H as [<- H]. injection H as <-. auto.
      * rewrite generateSignature_spec by exact Hn.
        intros H. apply pair_inj in H as [H _]. apply Done_inj in H.
        apply pair_inj in H as [_ H]. discriminate H.
    + rewrite generateSignature_spec by exact Hn.
      intros H. apply pair_inj in H as [H _]. apply Done_inj in H.
      apply pair_inj in H as [_ H]. discriminate H.
Qed.

Lemma Generate_outcomes_witness :
  Generate r8 env_late [] = (Done ("", Some ulid_ErrBigTime), r8)
  /\ exists s r',
       Generate r8 env0 [] = (Done (s, None), r')
       /\ ulid.ms (entropy r') = ulid.Timestamp (now env0).
Proof.
  split.
  - apply (proj1 (Generate_outcomes r8 env_late [] ltac:(simpl; lia))).
    vm_compute. reflexivity.
  - apply (proj1 (proj2 (Generate_outcomes r8 env0 [] ltac:(simpl; lia)))).
    + vm_compute. discriminate.
    + left. reflexivity.
Defined.

(** [Generate] changes nothing of the instance but its entropy state. *)
Lemma Generate_keeps_configuration r e md o r' :
  Generate r e md = (o, r') ->
  secretKey r' = secretKey r /\ signatureLength r' = signatureLength r.
Proof.
  unfold Generate. destruct (ulid.New _ _ _) as [[id err] m'].
  destruct err as [err|].
  - intros H. apply pair_inj in H as [_ <-]. split; reflexivity.
  - destruct (generateSignature _ _ _);
      intros H; apply pair_inj in H as [_ <-]; split; reflexivity.
Qed.

Lemma Generate_all_configuration calls : forall r outs r',
  Generate_all r calls = (outs, r') ->
  secretKey r' = secretKey r /\ signatureLength r' = signatureLength r.
Proof.
  induction calls as [|[e md] calls IH]; intros r outs r'; simpl.
  - intros H. apply pair_inj in H as [_ <-]. split; reflexivity.
  - destruct (Generate r e md) as [o r1] eqn:E1.
    destruct (Generate_all r1 calls) as [os r2] eqn:E2.
    intros H. apply pair_inj in H as [_ <-].
    apply Generate_keeps_configuration in E1 as [Hk Hn].
    apply IH in E2 as [Hk2 Hn2]. split; congruence.
Qed.

(** X12. An instance made by [NewRigid] keeps its key and its signature
    length, within [4, 32], through any run of [Generate] calls; no call of the
    run panics, and every identifier returned without error during the run is
    accepted by the instance at the end of the run, with the metadata of its
    call. *)
Theorem Generate_run_invariant :
  forall (key lens : list Z) (r0 : Rigid) (calls : list (Env * list string))
         (outs : list (outcome (string * option error))) (r' : Rigid),
    NewRigid key lens = (Some r0, None) ->
    Generate_all r0 calls = (outs, r') ->
    key <> []
    /\ secretKey r' = key
    /\ signatureLength r' = signatureLength r0
    /\ 4 <= signatureLength r' <= 32
    /\ Forall2
         (fun call o =>
            exists s err,
              o = Done (s, err)
              /\ (err = None ->
                  Verify r' s =
                  Done (mkVerifyResult true (nth 0 (strings.Split s "-") "")
                          (hd "" (snd call)), None)))
         calls outs.
Proof.
  intros key lens r0 calls outs r' HN HG.
  assert (H0 : key <> [] /\ secretKey r0 = key /\ 4 <= signatureLength r0 <= 32).
  { destruct (NewRigid_cases key lens)
      as [[Hk E] | [(Hk & Hl & E) | (Hk & Hl & E)]]; rewrite E in HN;
      try discriminate HN.
    apply pair_inj in HN as [HN _]. injection HN as <-. cbn.
    split; [exact Hk|]. split; [reflexivity|].
    unfold DefaultSignatureLength.
    destruct lens as [|n rest]; cbn; [lia|].
    destruct (Z.lt_ge_cases n 4); [exfalso; apply Hl; eauto|].
    destruct (Z.lt_ge_cases 32 n); [exfalso; apply Hl; eauto|]. lia. }
  destruct H0 as (Hk & Hkey & Hlen).
  pose proof (Generate_all_configuration _ _ _ _ HG) as [Hk' Hn'].
  split; [exact Hk|]. split; [congruence|]. split; [exact Hn'|].
  split; [lia|].
  clear HN Hk Hkey. revert r0 outs Hlen Hk' Hn' HG.
  induction calls as [|[e md] calls IH]; intros r outs Hlen Hk' Hn'; simpl.
  - intros H. apply pair_inj in H as [<- _]. constructor.
  - destruct (Generate r e md) as [o r1] eqn:E1.
    destruct (Generate_all r1 calls) as [os r2] eqn:E2.
    intros H. apply pair_inj in H as [<- ->].
    pose proof (Generate_keeps_configuration _ _ _ _ _ E1) as [Hk1 Hn1].
    constructor.
    + destruct (Generate_returns r e md ltac:(lia)) as (s & rx & Hret).
      rewrite E1 in Hret. apply pair_inj in Hret as [-> _].
      eexists. eexists. split; [reflexivity|].
      intros Herr. cbn [snd].
      apply (Verify_on_another_instance r r' e md s r1); [|assumption..].
      rewrite E1. now rewrite Herr.
    + apply (IH r1); [lia | congruence | congruence | exact E2].
Qed.

Lemma Generate_run_invariant_witness :
  testSecretKey <> []
  /\ secretKey (snd (Generate_all r8 two_calls)) = testSecretKey
  /\ signatureLength (snd (Generate_all r8 two_calls)) = signatureLength r8
  /\ 4 <= signatureLength (snd (Generate_all r8 two_calls)) <= 32
  /\ Forall2
       (fun call o =>
          exists s err,
            o = Done (s, err)
            /\ (err = None ->
                Verify (snd (Generate_all r8 two_calls)) s =
                Done (mkVerifyResult true (nth 0 (strings.Split s "-") "")
                        (hd "" (snd call)), None)))
       two_calls (fst (Generate_all r8 two_calls)).
Proof.
  apply (Generate_run_invariant testSecretKey [] r8 two_calls).
  - reflexivity.
  - apply surjective_pairing.
Defined.

End Generation.

Section Monotonic.

Open Scope string_scope.

Lemma fold_be l : forall acc,
  fold_left (fun acc b => acc * 256 + b) l acc =
  acc * 256 ^ Z.of_nat (List.length l) + from_be l.
Proof.
  unfold from_be. induction l as [|b l IH]; intros acc.
  - simpl. lia.
  - cbn [fold_left List.length]. rewrite IH, (IH (0 * 256 + b)).
    rewrite Nat2Z.inj_succ, Z.pow_succ_r by lia. lia.
Qed.

Lemma from_be_cons a l :
  from_be (a :: l) = a * 256 ^ Z.of_nat (List.length l) + from_be l.
Proof. unfold from_be at 1. cbn [fold_left]. rewrite fold_be. lia. Qed.

Lemma from_be_app a b :
  from_be (a ++ b)%list = from_be a * 256 ^ Z.of_nat (List.length b) + from_be b.
Proof.
  unfold from_be at 1. rewrite fold_left_app. fold (from_be a).
  apply fold_be.
Qed.

Lemma be_S n x :
  ulid.be (S n) x = uint8 (Z.shiftr x (8 * Z.of_nat n)) :: ulid.be n x.
Proof.
  unfold ulid.be. rewrite seq_S, rev_app_distr. reflexivity.
Qed.

(** The bytes written for a number spell it, up to their width. *)
Lemma from_be_be n x : from_be (ulid.be n x) = x mod 2 ^ (8 * Z.of_nat n).
Proof.
  induction n as [|n IH].
  - cbn. now rewrite Z.mod_1_r.
  - rewrite be_S, from_be_cons, be_length, IH.
    unfold uint8. change 255 with (Z.ones 8).
    rewrite Z.land_ones, Z.shiftr_div_pow2 by lia.
    replace (8 * Z.of_nat (S n)) with (8 * Z.of_nat n + 8) by lia.
    rewrite Z.pow_add_r by lia.
    rewrite Z.rem_mul_r by lia.
    replace (256 ^ Z.of_nat n) with (2 ^ (8 * Z.of_nat n))
      by (rewrite Z.pow_mul_r by lia; reflexivity).
    lia.
Qed.

Lemma AppendTo_value u :
  0 <= ulid.Hi u < 2 ^ 16 -> 0 <= ulid.Lo u < 2 ^ 64 ->
  from_be (ulid.AppendTo u) = uint80_value u.
Proof.
  intros HH HL. unfold ulid.AppendTo, uint80_value.
  rewrite from_be_app, !from_be_be, be_length.
  change (8 * Z.of_nat 2) with 16. change (8 * Z.of_nat 8) with 64.
  rewrite !Z.mod_small by assumption. reflexivity.
Qed.

Lemma SetBytes_ok x :
  0 <= x < 2 ^ 80 ->
  0 <= ulid.Hi (ulid.SetBytes x) < 2 ^ 16
  /\ 0 <= ulid.Lo (ulid.SetBytes x) < 2 ^ 64
  /\ uint80_value (ulid.SetBytes x) = x.
Proof.
  intros Hx. unfold ulid.SetBytes, uint80_value. cbn [ulid.Hi ulid.Lo].
  rewrite Z.land_ones, Z.shiftr_div_pow2 by lia.
  pose proof (Z.div_mod x (2 ^ 64) ltac:(lia)) as Hdm.
  pose proof (Z.mod_pos_bound x (2 ^ 64) ltac:(lia)) as Hm.
  assert (0 <= x / 2 ^ 64 < 2 ^ 16).
  { split; [apply Z.div_pos; lia|].
    apply Z.div_lt_upper_bound; [lia|].
    change (2 ^ 64 * 2 ^ 16) with (2 ^ 80). lia. }
  lia.
Qed.

Lemma random_range m rnd :
  ulid.inc m = 4294967295 -> 1 <= ulid.random m rnd < 2 ^ 32.
Proof.
  intros Hinc. unfold ulid.random, uint64. rewrite Hinc.
  destruct (Z.leb_spec 4294967295 1) as [Hle|_]; [lia|].
  pose proof (Z.mod_pos_bound (ulid.int63 rnd) 4294967295 ltac:(lia)) as H.
  rewrite Z.mod_small by lia. lia.
Qed.

(** An addition that reports no overflow adds. *)
Lemma Add_value u n u' :
  0 <= ulid.Hi u < 2 ^ 16 -> 0 <= ulid.Lo u < 2 ^ 64 -> 1 <= n < 2 ^ 64 ->
  ulid.Add u n = (u', false) ->
  0 <= ulid.Hi u' < 2 ^ 16 /\ 0 <= ulid.Lo u' < 2 ^ 64
  /\ uint80_value u' = uint80_value u + n.
Proof.
  intros HH HL Hn. unfold ulid.Add, uint80_value, uint64, uint16.
  pose proof (Z.mod_pos_bound (ulid.Lo u + n) (2 ^ 64) ltac:(lia)) as Hlo.
  pose proof (Z.mod_pos_bound (ulid.Hi u + 1) (2 ^ 16) ltac:(lia)) as Hhi.
  destruct (Z.ltb_spec ((ulid.Lo u + n) mod 2 ^ 64) (ulid.Lo u)) as [Hw|Hw].
  - destruct (Z.ltb_spec ((ulid.Hi u + 1) mod 2 ^ 16) (ulid.Hi u)) as [Ho|Ho];
      intros H; apply pair_inj in H as [<- H]; [discriminate H|].
    cbn [ulid.Hi ulid.Lo].
    assert (Hlt : ulid.Hi u + 1 < 2 ^ 16).
    { destruct (Z.eq_dec (ulid.Hi u + 1) (2 ^ 16)) as [E|E]; [|lia].
      rewrite E, Z.mod_same in Ho by lia. lia. }
    rewrite (Z.mod_small (ulid.Hi u + 1)) in * by lia.
    assert (Hge : 2 ^ 64 <= ulid.Lo u + n).
    { destruct (Z.lt_ge_cases (ulid.Lo u + n) (2 ^ 64)) as [Hs|]; [|lia].
      rewrite Z.mod_small in Hw by lia. lia. }
    assert (Hm : (ulid.Lo u + n) mod 2 ^ 64 = ulid.Lo u + n - 2 ^ 64).
    { symmetry. apply Z.mod_unique with 1; lia. }
    rewrite Hm. lia.
  - destruct (Z.ltb_spec (ulid.Hi u) (ulid.Hi u)) as [Ho|Ho]; [lia|].
    intros H. apply pair_inj in H as [<- _]. cbn [ulid.Hi ulid.Lo].
    assert (Hs : ulid.Lo u + n < 2 ^ 64).
    { destruct (Z.lt_ge_cases (ulid.Lo u + n) (2 ^ 64)) as [|Hge]; [lia|].
      assert (Hm : (ulid.Lo u + n) mod 2 ^ 64 = ulid.Lo u + n - 2 ^ 64)
        by (symmetry; apply Z.mod_unique with 1; lia).
      lia. }
    rewrite Z.mod_small by lia. lia.
Qed.

(** What [New] leaves behind when it reports no error. *)
Lemma New_value t m rnd id m' :
  entropy_ok m ->
  ulid.New t m rnd = (id, None, m') ->
  entropy_ok m' /\ ulid.ms m' = t
  /\ (exists e, id = (ulid.be 6 t ++ e)%list
                /\ from_be e = uint80_value (ulid.entropy m'))
  /\ (ulid.IsZero (ulid.entropy m) = false -> ulid.ms m = t ->
      uint80_value (ulid.entropy m) < uint80_value (ulid.entropy m')).
Proof.
  intros (HH & HL & Hinc). unfold ulid.New, ulid.MonotonicRead.
  destruct (ulid.maxTime <? t)%Z.
  { intros H. apply triple_inj in H as (_ & H & _). discriminate H. }
  destruct (ulid.IsZero (ulid.entropy m)) eqn:Ez; cbn [negb andb].
  - intros H. apply triple_inj in H as (<- & _ & <-).
    cbn [ulid.entropy ulid.ms ulid.inc].
    pose proof (Z.mod_pos_bound (ulid.read rnd) (2 ^ 80) ltac:(lia)) as Hx.
    destruct (SetBytes_ok _ Hx) as (H1 & H2 & H3).
    split; [repeat split; try apply H1; try apply H2; exact Hinc|].
    split; [reflexivity|]. split; [|discriminate].
    eexists. split; [reflexivity|].
    rewrite from_be_be, H3. change (8 * Z.of_nat 10) with 80.
    now rewrite Z.mod_mod by lia.
  - destruct (Z.eqb_spec (ulid.ms m) t) as [Et|Et].
    + destruct (ulid.Add (ulid.entropy m) (ulid.random m rnd))
        as [u overflow] eqn:EA.
      destruct overflow.
      { intros H. apply triple_inj in H as (_ & H & _). discriminate H. }
      intros H. apply triple_inj in H as (<- & _ & <-).
      cbn [ulid.entropy ulid.ms ulid.inc].
      pose proof (random_range m rnd Hinc) as Hr.
      assert (Hr' : 1 <= ulid.random m rnd < 2 ^ 64) by lia.
      destruct (Add_value _ _ _ HH HL Hr' EA) as (H1 & H2 & H3).
      split; [repeat split; try apply H1; try apply H2; exact Hinc|].
      split; [exact Et|]. split.
      * eexists. split; [reflexivity|]. now apply AppendTo_value.
      * intros _ _. lia.
    + intros H. apply triple_inj in H as (<- & _ & <-).
      cbn [ulid.entropy ulid.ms ulid.inc].
      pose proof (Z.mod_pos_bound (ulid.read rnd) (2 ^ 80) ltac:(lia)) as Hx.
      destruct (SetBytes_ok _ Hx) as (H1 & H2 & H3).
      split; [repeat split; try apply H1; try apply H2; exact Hinc|].
      split; [reflexivity|]. split; [|congruence].
      eexists. split; [reflexivity|].
      rewrite from_be_be, H3. change (8 * Z.of_nat 10) with 80.
      now rewrite Z.mod_mod by lia.
Qed.

Lemma String_inj id1 id2 :
  ulid.wf id1 -> ulid.wf id2 -> ulid.String id1 = ulid.String id2 -> id1 = id2.
Proof.
  intros H1 H2 E. pose proof (Parse_String id1 H1) as P1.
  rewrite E, (Parse_String id2 H2) in P1.
  apply pair_inj in P1 as [P1 _]. now symmetry.
Qed.

(** The state that [NewRigid] starts from is as the library keeps it. *)
Lemma NewRigid_entropy_ok key lens r :
  NewRigid key lens = (Some r, None) -> entropy_ok (entropy r).
Proof.
  intros H.
  destruct (NewRigid_cases key lens)
    as [[Hk E] | [(Hk & Hl & E) | (Hk & Hl & E)]]; rewrite E in H;
    try discriminate H.
  apply pair_inj in H as [H _]. injection H as <-.
  unfold entropy_ok. cbn. lia.
Qed.

(** X13. Two calls of [Generate] in a row on one instance that fall into
    the same millisecond and both succeed return different identifiers with
    different id segments, the entropy kept by the instance having grown in
    between, provided the entropy kept after the first call is not zero.  The
    entropy state stays as the library keeps it. *)
Theorem Generate_same_millisecond_distinct :
  forall (r : Rigid) (e1 e2 : Env) (md1 md2 : list string)
         (s1 s2 : string) (r1 r2 : Rigid),
    entropy_ok (entropy r) ->
    Generate r e1 md1 = (Done (s1, None), r1) ->
    Generate r1 e2 md2 = (Done (s2, None), r2) ->
    ulid.Timestamp (now e2) = ulid.Timestamp (now e1) ->
    ulid.IsZero (ulid.entropy (entropy r1)) = false ->
    uint80_value (ulid.entropy (entropy r1))
      < uint80_value (ulid.entropy (entropy r2))
    /\ nth 0 (strings.Split s1 "-") "" <> nth 0 (strings.Split s2 "-") ""
    /\ s1 <> s2
    /\ entropy_ok (entropy r2).
Proof.
  intros r e1 e2 md1 md2 s1 s2 r1 r2 Hok G1 G2 Ht Hz.
  apply Generate_done in G1 as (id1 & m1 & sig1 & N1 & -> & S1 & ->).
  apply Generate_done in G2 as (id2 & m2 & sig2 & N2 & -> & S2 & ->).
  cbn [entropy secretKey signatureLength] in *.
  destruct (New_value _ _ _ _ _ Hok N1) as (Hok1 & Hms1 & (x1 & -> & V1) & _).
  destruct (New_value _ _ _ _ _ Hok1 N2) as (Hok2 & Hms2 & (x2 & -> & V2) & Hgrow).
  specialize (Hgrow Hz ltac:(congruence)).
  pose proof (New_wf _ _ _ _ _ _ N1) as W1.
  pose proof (New_wf _ _ _ _ _ _ N2) as W2.
  rewrite !Split_assemble
    by (first [ apply String_lacks_hyphen
              | eapply generateSignature_lacks_hyphen; eassumption ]).
  cbn [nth].
  assert (Hne : ulid.String (ulid.be 6 (ulid.Timestamp (now e1)) ++ x1)%list <>
                ulid.String (ulid.be 6 (ulid.Timestamp (now e2)) ++ x2)%list).
  { intros E. apply String_inj in E; [|assumption..].
    rewrite Ht in E. apply app_inv_head in E. subst x2. lia. }
  split; [exact Hgrow|]. split; [exact Hne|]. split; [|exact Hok2].
  intros E. apply Hne.
  apply (f_equal (fun s => nth 0 (strings.Split s "-") "")) in E.
  rewrite !Split_assemble in E
    by (first [ apply String_lacks_hyphen
              | eapply generateSignature_lacks_hyphen; eassumption ]).
  exact E.
Qed.

Lemma Generate_same_millisecond_distinct_witness :
  uint80_value (ulid.entropy (entropy r8_after))
    < uint80_value (ulid.entropy (entropy (snd (Generate r8_after env0 []))))
  /\ nth 0 (strings.Split id_meta "-") "" <> nth 0 (strings.Split id_next "-") ""
  /\ id_meta <> id_next
  /\ entropy_ok (entropy (snd (Generate r8_after env0 []))).
Proof.
  apply (Generate_same_millisecond_distinct r8 env0 env0 ["a-b--c"] []
           id_meta id_next r8_after (snd (Generate r8_after env0 []))).
  - unfold entropy_ok. simpl. lia.
  - vm_compute. reflexivity.
  - vm_compute. reflexivity.
  - reflexivity.
  - reflexivity.
Defined.

End Monotonic.

Section Accepted.

Open Scope string_scope.

Lemma Split_pieces s c : Forall (lacks c) (strings.Split s c).
Proof.
  induction s as [|a s IH]; simpl.
  - repeat constructor.
  - destruct (Ascii.eqb_spec a c) as [->|Hne].
    + constructor; [exact I | exact IH].
    + destruct (strings.Split s c) as [|p ps].
      * repeat constructor. exact Hne.
      * inversion_clear IH. constructor; [split; assumption | assumption].
Qed.

Lemma spec_signature_lacks_hyphen key n u m :
  lacks "-" (spec_signature key n u m).
Proof.
  apply (all_in_lacks alphabet); [exact hyphen_not_in_alphabet|].
  apply EncodeToString_alphabet.
Qed.

(** X14. The inputs [Verify] accepts, on an instance with a signature length
    in [0, 32]: exactly the texts [u-sig] and [u-sig-m] in which [u] has no
    hyphen and parses as an id and [sig] is the signature of [u] and [m]
    ([m] empty in the first form), and the texts [u-sig-] with [sig] the
    signature of [u] and empty metadata. *)
Theorem Verify_accepted_inputs :
  forall (r : Rigid) (s : string),
    0 <= signatureLength r <= 32 ->
    ((exists v, Verify r s = Done (v, None)) <->
     exists u m,
       lacks "-" u /\ snd (ulid.Parse u) = None
       /\ (s = assemble u (spec_signature (secretKey r) (signatureLength r) u m) m
           \/ (m = ""
               /\ s = u ++ "-"
                        ++ spec_signature (secretKey r) (signatureLength r) u m
                        ++ "-"))).
Proof.
  intros r s Hn. rewrite Verify_is_decision by exact Hn. split.
  - intros [v H]. apply Done_inj in H. unfold Verify_decision in H.
    pose proof (Join_Split s "-") as HJ.
    pose proof (Split_pieces s "-") as HP.
    destruct (strings.Split s "-") as [|u [|sig rest]];
      cbn [List.length Nat.ltb Nat.leb nth] in H.
    + apply pair_inj in H as [_ H]. discriminate H.
    + apply pair_inj in H as [_ H]. discriminate H.
    + inversion_clear HP as [|? ? Hu _].
      destruct (snd (ulid.Parse u)) eqn:EP.
      { apply pair_inj in H as [_ H]. discriminate H. }
      destruct rest as [|p ps]; cbn [List.length Nat.ltb Nat.leb skipn] in H.
      * destruct (String.eqb_spec sig
                    (spec_signature (secretKey r) (signatureLength r) u ""))
          as [Es|Es]; [|apply pair_inj in H as [_ H]; discriminate H].
        exists u, "". split; [exact Hu|]. split; [exact EP|]. left.
        rewrite <- Es. unfold assemble. cbn [String.eqb]. now rewrite <- HJ.
      * destruct (String.eqb_spec sig
                    (spec_signature (secretKey r) (signatureLength r) u
                       (strings.Join (p :: ps) "-")))
          as [Es|Es]; [|apply pair_inj in H as [_ H]; discriminate H].
        exists u, (strings.Join (p :: ps) "-").
        split; [exact Hu|]. split; [exact EP|]. rewrite <- Es.
        assert (Hs : s = u ++ "-" ++ sig ++ "-" ++ strings.Join (p :: ps) "-")
          by now rewrite <- HJ.
        destruct (String.eqb_spec (strings.Join (p :: ps) "-") "") as [E0|E0].
        -- right. split; [exact E0|]. rewrite Hs, E0. reflexivity.
        -- left. unfold assemble. apply String.eqb_neq in E0. rewrite E0.
           rewrite Hs. now rewrite append_assoc.
  - intros (u & m & Hu & HP & [->|[-> ->]]).
    + rewrite decision_assembled
        by (first [exact Hu | apply spec_signature_lacks_hyphen]).
      rewrite HP, String.eqb_refl. eauto.
    + unfold Verify_decision.
      change (u ++ "-" ++ ?x ++ "-") with (u ++ String "-" (x ++ String "-" "")).
      rewrite !Split_app
        by (first [exact Hu | apply spec_signature_lacks_hyphen]).
      cbn [strings.Split List.length Nat.ltb Nat.leb nth skipn strings.Join].
      rewrite HP, String.eqb_refl. eauto.
Qed.

Lemma Verify_accepted_inputs_witness :
  exists v, Verify r8 id_trailing = Done (v, None).
Proof.
  apply (proj2 (Verify_accepted_inputs r8 id_trailing ltac:(simpl; lia))).
  exists "01ARYZ6S4138J9P7RGM1P9DBZJ", "".
  split; [vm_compute; repeat split; discriminate|].
  split; [reflexivity|]. right. split; [reflexivity|].
  vm_compute. reflexivity.
Defined.

(** X15. Which error [NewRigid] gives: an empty key always gives the
    empty-key error, whatever lengths are passed; with a key that is not empty
    a first length outside [4, 32] gives the length error; lengths after the
    first are never looked at. *)
Theorem NewRigid_error_order :
  forall (key lens : list Z) (n : Z) (more : list Z),
    NewRigid [] lens = (None, Some ErrEmptySecretKey)
    /\ (key <> [] -> n < 4 \/ 32 < n ->
        NewRigid key (n :: more) = (None, Some ErrInvalidSigLength))
    /\ NewRigid key (n :: more) = NewRigid key [n].
Proof.
  intros key lens n more. split; [reflexivity|]. split.
  - intros Hk Hn.
    destruct (NewRigid_cases key (n :: more))
      as [[Hk' E] | [(_ & _ & E) | (_ & Hl & E)]];
      [contradiction | exact E | exfalso; apply Hl; eauto].
  - reflexivity.
Qed.

Lemma NewRigid_error_order_witness :
  NewRigid testSecretKey [33; 8] = (None, Some ErrInvalidSigLength).
Proof.
  apply (proj1 (proj2 (NewRigid_error_order testSecretKey [] 33 [8]))).
  - discriminate.
  - lia.
Defined.

(** X16. The first [Generate] on an instance that [NewRigid] returned
    succeeds whenever the clock's millisecond count fits 48 bits: the entropy
    kept is still zero, so the call reads fresh random bytes and cannot
    overflow. *)
Theorem first_Generate_succeeds :
  forall (key lens : list Z) (r : Rigid) (e : Env) (md : list string),
    NewRigid key lens = (Some r, None) ->
    ulid.Timestamp (now e) <= ulid.maxTime ->
    exists s r',
      Generate r e md = (Done (s, None), r')
      /\ ulid.ms (entropy r') = ulid.Timestamp (now e)
      /\ Verify r s =
         Done (mkVerifyResult true (nth 0 (strings.Split s "-") "") (hd "" md),
               None).
Proof.
  intros key lens r e md HN Ht.
  assert (H0 : 4 <= signatureLength r <= 32
               /\ ulid.IsZero (ulid.entropy (entropy r)) = true).
  { destruct (NewRigid_cases key lens)
      as [[Hk E] | [(Hk & Hl & E) | (Hk & Hl & E)]]; rewrite E in HN;
      try discriminate HN.
    apply pair_inj in HN as [HN _]. injection HN as <-. cbn.
    split; [|reflexivity]. unfold DefaultSignatureLength.
    destruct lens as [|n rest]; cbn; [lia|].
    destruct (Z.lt_ge_cases n 4); [exfalso; apply Hl; eauto|].
    destruct (Z.lt_ge_cases 32 n); [exfalso; apply Hl; eauto|]. lia. }
  destruct H0 as [Hn Hz].
  destruct (proj1 (proj2 (Generate_outcomes r e md ltac:(lia))) Ht (or_introl Hz))
    as (s & r' & HG & Hms).
  exists s, r'. split; [exact HG|]. split; [exact Hms|].
  apply Verify_Generate in HG as (id & _ & _ & -> & _ & HV). exact HV.
Qed.

Lemma first_Generate_succeeds_witness :
  exists s r',
    Generate r8 env0 ["a-b--c"] = (Done (s, None), r')
    /\ ulid.ms (entropy r') = ulid.Timestamp (now env0)
    /\ Verify r8 s =
       Done (mkVerifyResult true (nth 0 (strings.Split s "-") "")
               (hd "" ["a-b--c"]), None).
Proof.
  apply (first_Generate_succeeds testSecretKey [] r8 env0 ["a-b--c"]).
  - reflexivity.
  - vm_compute. discriminate.
Defined.

End Accepted.
